(** * featurex.stimuli.text: text stimuli, file ingestion and segmentation

    A shallow embedding of [featurex/stimuli/text.py] ([TextStim],
    [DynamicTextStim], [ComplexTextStim]) together with the parts of the
    Python runtime the module leans on: exceptions, [str] helpers, the
    [re] matcher, the tabular reader and the optional [nltk] package.

    Conventions.
    - A Python call that may raise returns a [result]; [Raise] carries the
      exception class and its message.
    - Text is [string]; a character stands for the Unicode code point
      of its number, so the texts of the model are those over the code
      points below 256, and the character classes of [str] and [re] are
      those of Python 3 on that range. File contents are taken with
      newlines already normalised to ["\n"], which is what a text-mode
      [open] hands to the program.
    - A Python object is its class together with its attribute
      dictionary, so that reading an attribute that was never set is an
      [AttributeError] and not a default value. *)

From stdpp Require Import gmap strings list fin_maps.
From Stdlib Require Import Ascii String QArith_base.
Close Scope Q_scope.
Open Scope string_scope.
Open Scope list_scope.

(** ** Python runtime: exceptions and values *)

Module Py.

Inductive exn_class :=
| IOError
| TypeError
| KeyError
| ValueError
| ImportError
| LookupError
| IndexError
| AttributeError
| NameError
| ReError
| NotImplementedError
| ParserError
| EmptyDataError.

Record exn := Exn { exn_cls : exn_class; exn_msg : string }.

Inductive result (A : Type) :=
| Ok (a : A)
| Raise (e : exn).

Arguments Ok {A} a.
Arguments Raise {A} e.

Definition bind {A B} (r : result A) (f : A → result B) : result B :=
  match r with
  | Ok a => f a
  | Raise e => Raise e
  end.

(** [try: body except: handler] with a bare [except], which catches every
    exception class. *)
Definition try_except {A} (body : result A) (handler : exn → result A)
  : result A :=
  match body with
  | Ok a => Ok a
  | Raise e => handler e
  end.

(** The values that reach the attributes of a stimulus: [None], the
    missing-value marker [nan], a [str], a row number, a [float], the
    tuple of groups that [re.findall] yields for a pattern with several
    groups, and the tuple that labels a row of a table with several
    index columns (a level is a text, or [nan], written [None] here). *)
Inductive pyval :=
| PyNone
| PyNaN
| PyStr (s : string)
| PyInt (n : nat)
| PyFloat (q : Q)
| PyTuple (l : list string)
| PyKey (levels : list (option string)).

(** [x is None] *)
Definition is_None (v : pyval) : bool :=
  match v with
  | PyNone => true
  | _ => false
  end.

(** [isinstance(e, LookupError)], as [except LookupError] tests it: the
    class itself and its subclasses [KeyError] and [IndexError]. *)
Definition is_LookupError (c : exn_class) : bool :=
  match c with
  | LookupError | KeyError | IndexError => true
  | _ => false
  end.

End Py.

Export Py.

#[global] Instance result_ret : MRet result := @Ok.
#[global] Instance result_bind : MBind result := λ A B f r, Py.bind r f.

#[global] Instance exn_class_eq_dec : EqDecision exn_class.
Proof. solve_decision. Defined.

#[global] Instance exn_eq_dec : EqDecision exn.
Proof. solve_decision. Defined.

#[global] Instance Q_eq_dec : EqDecision Q.
Proof. solve_decision. Defined.

#[global] Instance pyval_eq_dec : EqDecision pyval.
Proof. solve_decision. Defined.

(** ** [str] methods used by the module *)

Module Str.

Definition LF : ascii := "010"%char.
Definition TAB : ascii := "009"%char.

(** [str.isspace] on one character, which is what [str.strip()] removes
    when called without argument: [\t \n \v \f \r], the four
    separators [\x1c]-[\x1f], the space, the next-line control [\x85]
    and the no-break space [\xa0]. *)
Definition isspace (c : ascii) : bool :=
  let n := nat_of_ascii c in
  ((9 <=? n)%nat && (n <=? 13)%nat) || ((28 <=? n)%nat && (n <=? 32)%nat)
  || (n =? 133)%nat || (n =? 160)%nat.

Fixpoint lstrip (s : string) : string :=
  match s with
  | String c s' => if isspace c then lstrip s' else s
  | EmptyString => EmptyString
  end.

(** Drops trailing whitespace: a character is kept when it is not
    whitespace or when something is kept after it. *)
Fixpoint rstrip (s : string) : string :=
  match s with
  | String c s' =>
      match rstrip s' with
      | EmptyString => if isspace c then EmptyString else String c EmptyString
      | r => String c r
      end
  | EmptyString => EmptyString
  end.

(** [s.strip()] *)
Definition strip (s : string) : string := rstrip (lstrip s).

(** [s.split(sep)] for a one-character separator: the fields between the
    separators, always at least one. *)
Fixpoint split (sep : ascii) (s : string) : list string :=
  match s with
  | EmptyString => [EmptyString]
  | String c s' =>
      if Ascii.eqb c sep then EmptyString :: split sep s'
      else match split sep s' with
           | f :: fs => String c f :: fs
           | [] => [String c EmptyString]
           end
  end.

(** [f.readline()] on a just-opened file: the text up to and including
    the first newline, or everything when there is none. *)
Fixpoint readline (s : string) : string :=
  match s with
  | EmptyString => EmptyString
  | String c s' =>
      if Ascii.eqb c LF then String c EmptyString else String c (readline s')
  end.

(** [s.startswith(p)] *)
Definition startswith (p s : string) : bool := String.prefix p s.

(** The characters of a string as one-character strings, which is what
    iterating a [str] yields. *)
Fixpoint chars (s : string) : list string :=
  match s with
  | EmptyString => []
  | String c s' => String c EmptyString :: chars s'
  end.

End Str.

(** ** The [re] module: backtracking matcher and [findall]

    The fragment of the pattern language that the module's own pattern
    needs, with Python's matching discipline: alternatives are tried left
    to right, repetition is greedy and gives characters back on failure,
    look-ahead assertions consume nothing, and the scan for successive
    matches treats empty matches as Python 3.7 and later do. A pattern
    is a [str], so [\w], [\d] and [\s] are the Unicode classes. *)

Module Re.

Inductive regex :=
| Eps
| Chars (negated : bool) (ranges : list (ascii * ascii))
| Cat (r1 r2 : regex)
| Alt (r1 r2 : regex)
| Repeat (lo : nat) (extra : option nat) (r : regex)
| Look (positive : bool) (r : regex)
| Group (i : nat) (r : regex).

Definition in_range (c : ascii) (rg : ascii * ascii) : bool :=
  (nat_of_ascii rg.1 <=? nat_of_ascii c)%nat
  && (nat_of_ascii c <=? nat_of_ascii rg.2)%nat.

Definition char_matches (negated : bool) (ranges : list (ascii * ascii))
  (c : ascii) : bool :=
  xorb negated (existsb (in_range c) ranges).

(** Text captured by the groups so far, most recent first. *)
Definition captures := list (nat * string).

Definition group_text (caps : captures) (i : nat) : option string :=
  snd <$> List.find (λ p, (p.1 =? i)%nat) caps.

(** The first [n] characters of [s]. *)
Definition str_take (n : nat) (s : string) : string := String.substring 0 n s.

(** The text consumed between [s] and its suffix [s']. *)
Definition consumed (s s' : string) : string :=
  str_take (String.length s - String.length s') s.

Definition or_else {A} (a b : option A) : option A :=
  match a with
  | Some x => Some x
  | None => b
  end.

(** A continuation takes the rest of the text and the captures; a matcher
    consumes a prefix of the text and calls its continuation, moving to
    its next choice when the continuation fails. *)
Definition cont := string → captures → option (string * captures).
Definition matcher := string → captures → cont → option (string * captures).

(** The optional iterations of a repetition, longest first: up to [extra]
    more runs of [body] (without bound for [None]). After an iteration
    that consumed nothing the loop stops and the rest of the pattern
    follows; so every iteration but the last consumes a character, and
    at most [String.length s] of them can be followed by another; [n]
    counts those down. *)
Fixpoint rep_opt (body : matcher) (n : nat) (extra : option nat)
  (s : string) (caps : captures) (k : cont) : option (string * captures) :=
  match extra with
  | Some O => k s caps
  | _ =>
      or_else
        (body s caps (λ s1 c1,
           if (String.length s1 <? String.length s)%nat
           then match n with
                | S n' => rep_opt body n' (pred <$> extra) s1 c1 k
                | O => None
                end
           else k s1 c1))
        (k s caps)
  end.

(** The [lo] mandatory iterations, then the optional ones. *)
Fixpoint rep_mand (body : matcher) (lo : nat) (extra : option nat)
  (s : string) (caps : captures) (k : cont) : option (string * captures) :=
  match lo with
  | S lo' => body s caps (λ s1 c1, rep_mand body lo' extra s1 c1 k)
  | O => rep_opt body (String.length s) extra s caps k
  end.

(** [m r s caps k]: match [r] at the head of [s], then hand the rest of
    the text and the captures to [k]. [Repeat lo extra r] runs [r] [lo]
    times and then up to [extra] more times. *)
Fixpoint m (r : regex) : matcher :=
  λ s caps k,
  match r with
  | Eps => k s caps
  | Chars neg rs =>
      match s with
      | String c s' => if char_matches neg rs c then k s' caps else None
      | EmptyString => None
      end
  | Cat r1 r2 => m r1 s caps (λ s1 c1, m r2 s1 c1 k)
  | Alt r1 r2 => or_else (m r1 s caps k) (m r2 s caps k)
  | Repeat lo extra r' => rep_mand (m r') lo extra s caps k
  | Look positive r' =>
      match m r' s caps (λ s1 c1, Some (s1, c1)), positive with
      | Some (_, c1), true => k s c1
      | None, false => k s caps
      | _, _ => None
      end
  | Group i r' => m r' s caps (λ s1 c1, k s1 ((i, consumed s s1) :: c1))
  end.

(** One attempt at the head of [s]. With [must_advance] an empty match is
    refused and the matcher looks for another way to match. *)
Definition match_at (r : regex) (must_advance : bool) (s : string)
  : option (string * captures) :=
  m r s [] (λ s1 c1,
    if must_advance && (String.length s <=? String.length s1)%nat
    then None else Some (s1, c1)).

(** A match object: where it starts, the text matched, the groups. *)
Record match_obj := Match {
  m_start : nat;
  m_text : string;
  m_caps : captures
}.

Definition m_end (mo : match_obj) : nat := m_start mo + String.length (m_text mo).

(** The matches found at one position: the leftmost attempt, and after
    an empty match a second attempt that has to advance. Returns them
    with the number of characters consumed. *)
Definition matches_here (r : regex) (pos : nat) (s : string)
  : list match_obj * nat :=
  match match_at r false s with
  | None => ([], 0)
  | Some (s1, c1) =>
      let t1 := consumed s s1 in
      match String.length t1 with
      | S n => ([Match pos t1 c1], S n)
      | O =>
          match match_at r true s with
          | Some (s2, c2) =>
              let t2 := consumed s s2 in
              ([Match pos t1 c1; Match pos t2 c2], String.length t2)
          | None => ([Match pos t1 c1], 0)
          end
      end
  end.

(** [re.finditer]: scan the text left to right; after a match the scan
    resumes where the match ended ([skip] counts the characters still
    covered by the last match). *)
Fixpoint scan (r : regex) (skip : nat) (pos : nat) (s : string)
  : list match_obj :=
  match skip, s with
  | S k, String _ s' => scan r k (S pos) s'
  | S _, EmptyString => []
  | O, String _ s' =>
      let (ms, n) := matches_here r pos s in
      ms ++ scan r (pred n) (S pos) s'
  | O, EmptyString => (matches_here r pos s).1
  end.

Definition finditer (r : regex) (text : string) : list match_obj :=
  scan r 0 0 text.

(** The text from offset [n] on. *)
Fixpoint str_drop (n : nat) (s : string) : string :=
  match n, s with
  | S n', String _ s' => str_drop n' s'
  | _, _ => s
  end.

(** [mo] is a match of [r] in [text]: an attempt at its start offset
    yields its text and its groups. *)
Definition is_match (r : regex) (text : string) (mo : match_obj) : Prop :=
  ∃ must_advance rest,
    match_at r must_advance (str_drop (m_start mo) text) = Some (rest, m_caps mo)
    ∧ m_text mo = consumed (str_drop (m_start mo) text) rest.

(** The matches lie one after the other from offset [from] on: each
    starts where the one before it ended, or later. *)
Fixpoint non_overlapping (from : nat) (ms : list match_obj) : Prop :=
  match ms with
  | [] => True
  | mo :: rest => (from ≤ m_start mo)%nat ∧ non_overlapping (m_end mo) rest
  end.

(** Offset [d] is covered by the matches [ms]: one of them starts at
    [d], or [d] lies inside one, after its first character. *)
Definition covered (ms : list match_obj) (d : nat) : Prop :=
  ∃ mo, mo ∈ ms ∧ (m_start mo = d ∨ (m_start mo < d < m_end mo)%nat).

(** Every character of [s] satisfies [P]. *)
Fixpoint str_forall (P : ascii → bool) (s : string) : bool :=
  match s with
  | EmptyString => true
  | String c s' => P c && str_forall P s'
  end.

(** Every character a class accepts satisfies [P]. *)
Definition class_within (P : ascii → bool) (negated : bool)
  (ranges : list (ascii * ascii)) : bool :=
  forallb (λ n, implb (char_matches negated ranges (ascii_of_nat n))
                      (P (ascii_of_nat n)))
          (seq 0 256).

(** A check on the pattern: the characters it can consume all satisfy
    [P]. What a look-ahead inspects is not consumed. *)
Fixpoint consumes_only (P : ascii → bool) (r : regex) : bool :=
  match r with
  | Eps => true
  | Chars neg rs => class_within P neg rs
  | Cat r1 r2 | Alt r1 r2 => consumes_only P r1 && consumes_only P r2
  | Repeat _ _ r' | Group _ r' => consumes_only P r'
  | Look _ _ => true
  end.

(** A check on the pattern: it cannot match without consuming a
    character. *)
Fixpoint never_empty (r : regex) : bool :=
  match r with
  | Eps | Look _ _ => false
  | Chars _ _ => true
  | Cat r1 r2 => never_empty r1 || never_empty r2
  | Alt r1 r2 => never_empty r1 && never_empty r2
  | Repeat lo _ r' => (0 <? lo)%nat && never_empty r'
  | Group _ r' => never_empty r'
  end.

(** What a matcher owes its caller: when it answers, it has consumed a
    prefix [t] of the text, made of characters that satisfy [P] (and not
    empty when [ne] is set), and the answer is that of the continuation
    on the rest. *)
Definition sound (P : ascii → bool) (ne : bool) (body : matcher) : Prop :=
  ∀ s caps (k : cont) res,
    body s caps k = Some res →
    ∃ t s1 c1, s = t +:+ s1
               ∧ str_forall P t = true
               ∧ (ne = true → t ≠ "")
               ∧ k s1 c1 = Some res.

(** Number of capturing groups of a pattern. *)
Fixpoint groups (r : regex) : nat :=
  match r with
  | Eps | Chars _ _ => 0
  | Cat r1 r2 | Alt r1 r2 => groups r1 + groups r2
  | Repeat _ _ r' | Look _ r' => groups r'
  | Group _ r' => S (groups r')
  end.

(** What [findall] reports for one match: the whole match when the
    pattern has no group, the group when it has one, the tuple of groups
    otherwise; a group that took no part in the match reads as [""]. *)
Definition findall_item (ngroups : nat) (mo : match_obj) : pyval :=
  let grp i := default "" (group_text (m_caps mo) i) in
  match ngroups with
  | 0 => PyStr (m_text mo)
  | 1 => PyStr (grp 1)
  | _ => PyTuple (grp <$> seq 1 ngroups)
  end.

Definition findall_re (r : regex) (text : string) : list pyval :=
  findall_item (groups r) <$> finditer r text.

End Re.

(** ** Reading a pattern string

    [compile] reads the pattern syntax for the fragment above: literals,
    [.], escapes ([\w \d \s] and their complements, [\n \t \r \f \v],
    escaped punctuation), bracketed classes with ranges, groups [( )],
    [(?: )], look-ahead [(?= )] and [(?! )], alternation, and the greedy
    quantifiers [* + ? {n} {n,} {,m} {n,m}]. It answers [None] for
    everything else, a malformed pattern or syntax outside the fragment
    (anchors, back-references, lazy quantifiers, flags); what [re] does
    with such a pattern is not decided here. *)

Module ReParse.
Import Re.

Definition chr (n : nat) : ascii := ascii_of_nat n.

Definition is_digit (c : ascii) : bool := in_range c ("0"%char, "9"%char).

(** An ASCII letter or digit: after a backslash these are the reserved
    escapes. *)
Definition is_alnum (c : ascii) : bool :=
  in_range c ("a"%char, "z"%char) || in_range c ("A"%char, "Z"%char) || is_digit c.

(** [\w] for a [str] pattern: the alphanumeric code points and the
    underscore. Below 256 these are the ASCII letters and digits, the
    ordinal indicators, the superscript digits, the micro sign, the
    vulgar fractions and the accented letters (all of [\xc0]-[\xff]
    but the multiplication and division signs). *)
Definition word_ranges : list (ascii * ascii) :=
  [("a"%char, "z"%char); ("A"%char, "Z"%char); ("0"%char, "9"%char);
   ("_"%char, "_"%char);
   (chr 170, chr 170); (chr 178, chr 179); (chr 181, chr 181);
   (chr 185, chr 186); (chr 188, chr 190); (chr 192, chr 214);
   (chr 216, chr 246); (chr 248, chr 255)].

(** [\d]: the decimal digits; below 256 there are no others than
    [0]-[9]. *)
Definition digit_ranges : list (ascii * ascii) := [("0"%char, "9"%char)].

(** [\s]: the characters of [str.isspace]. *)
Definition space_ranges : list (ascii * ascii) :=
  [(chr 9, chr 13); (chr 28, chr 32); (chr 133, chr 133); (chr 160, chr 160)].

(** [\w \d \s \W \D \S]: whether the set is complemented, and its ranges. *)
Definition escape_set (c : ascii) : option (bool * list (ascii * ascii)) :=
  if Ascii.eqb c "w" then Some (false, word_ranges)
  else if Ascii.eqb c "d" then Some (false, digit_ranges)
  else if Ascii.eqb c "s" then Some (false, space_ranges)
  else if Ascii.eqb c "W" then Some (true, word_ranges)
  else if Ascii.eqb c "D" then Some (true, digit_ranges)
  else if Ascii.eqb c "S" then Some (true, space_ranges)
  else None.

(** An escape that stands for one character. *)
Definition escape_char (c : ascii) : option ascii :=
  if Ascii.eqb c "n" then Some (chr 10)
  else if Ascii.eqb c "t" then Some (chr 9)
  else if Ascii.eqb c "r" then Some (chr 13)
  else if Ascii.eqb c "f" then Some (chr 12)
  else if Ascii.eqb c "v" then Some (chr 11)
  else if is_alnum c then None
  else Some c.

Definition digit_val (c : ascii) : nat := nat_of_ascii c - 48.

Fixpoint read_digits (acc : nat) (s : string) : nat * string :=
  match s with
  | String c s' =>
      if is_digit c then read_digits (10 * acc + digit_val c) s' else (acc, s)
  | EmptyString => (acc, s)
  end.

Definition starts_with_digit (s : string) : bool :=
  match s with
  | String c _ => is_digit c
  | EmptyString => false
  end.

(** The inside of [{...}] after the opening brace: lower bound and number
    of further iterations allowed. *)
Definition parse_braces (s : string) : option (nat * option nat * string) :=
  let '(lo, s1) := read_digits 0 s in
  let has_lo := starts_with_digit s in
  match s1 with
  | String c s2 =>
      if Ascii.eqb c "}" then
        if has_lo then Some (lo, Some 0, s2) else None
      else if Ascii.eqb c "," then
        let '(hi, s3) := read_digits 0 s2 in
        match s3 with
        | String c' s4 =>
            if Ascii.eqb c' "}" then
              if starts_with_digit s2 then
                if (lo <=? hi)%nat then Some (lo, Some (hi - lo), s4) else None
              else if has_lo then Some (lo, None, s4) else None
            else None
        | EmptyString => None
        end
      else None
  | EmptyString => None
  end.

Definition is_quant_char (c : ascii) : bool :=
  Ascii.eqb c "*" || Ascii.eqb c "+" || Ascii.eqb c "?" || Ascii.eqb c "{".

(** An optional quantifier after an atom; a second quantifier character
    right after it is refused. *)
Definition quantify (a : regex) (s : string) : option (regex * string) :=
  let done (q : regex) (rest : string) :=
    match rest with
    | String c _ => if is_quant_char c then None else Some (q, rest)
    | EmptyString => Some (q, rest)
    end in
  match s with
  | String c s' =>
      if Ascii.eqb c "*" then done (Repeat 0 None a) s'
      else if Ascii.eqb c "+" then done (Repeat 1 None a) s'
      else if Ascii.eqb c "?" then done (Repeat 0 (Some 1) a) s'
      else if Ascii.eqb c "{" then
        match parse_braces s' with
        | Some (lo, extra, rest) => done (Repeat lo extra a) rest
        | None => None
        end
      else Some (a, s)
  | EmptyString => Some (a, s)
  end.

(** Whether a [-] at the head of [s] opens a range (it does unless it is
    the last character of the class). *)
Definition dash_opens_range (s : string) : bool :=
  match s with
  | String d (String x _) => Ascii.eqb d "-" && negb (Ascii.eqb x "]")
  | _ => false
  end.

(** The upper end of a range. *)
Definition range_end (s : string) : option (ascii * string) :=
  match s with
  | String c rest =>
      if Ascii.eqb c "\" then
        match rest with
        | String e rest' =>
            match escape_char e with
            | Some x => Some (x, rest')
            | None => None
            end
        | EmptyString => None
        end
      else Some (c, rest)
  | EmptyString => None
  end.

(** The items of a bracketed class, after [[] and an optional [^]. *)
Fixpoint parse_class (fuel : nat) (acc : list (ascii * ascii)) (s : string)
  : option (list (ascii * ascii) * string) :=
  match fuel with
  | O => None
  | S f =>
      let item (c : ascii) (rest : string) :=
        if dash_opens_range rest then
          match rest with
          | String _ rest1 =>
              match range_end rest1 with
              | Some (hi, rest2) =>
                  if (nat_of_ascii c <=? nat_of_ascii hi)%nat
                  then parse_class f (acc ++ [(c, hi)]) rest2 else None
              | None => None
              end
          | EmptyString => None
          end
        else parse_class f (acc ++ [(c, c)]) rest in
      match s with
      | EmptyString => None
      | String c rest =>
          if Ascii.eqb c "]" then
            match acc with
            | [] => None
            | _ => Some (acc, rest)
            end
          else if Ascii.eqb c "\" then
            match rest with
            | String e rest' =>
                match escape_set e with
                | Some (false, rs) =>
                    if dash_opens_range rest' then None
                    else parse_class f (acc ++ rs) rest'
                | Some (true, _) => None
                | None =>
                    match escape_char e with
                    | Some x => item x rest'
                    | None => None
                    end
                end
            | EmptyString => None
            end
          else item c rest
      end
  end.

Definition cat (r1 r2 : regex) : regex :=
  match r2 with
  | Eps => r1
  | _ => Cat r1 r2
  end.

Definition expect (c : ascii) (s : string) : option string :=
  match s with
  | String c' s' => if Ascii.eqb c c' then Some s' else None
  | EmptyString => None
  end.

(** Recursive descent; [g] is the number of groups opened so far. *)
Fixpoint parse_alt (fuel : nat) (g : nat) (s : string)
  : option (regex * nat * string) :=
  match fuel with
  | O => None
  | S f =>
      '(r1, g1, s1) ← parse_seq f g s;
      match s1 with
      | String c s2 =>
          if Ascii.eqb c "|" then
            '(r2, g2, s3) ← parse_alt f g1 s2; Some (Alt r1 r2, g2, s3)
          else Some (r1, g1, s1)
      | EmptyString => Some (r1, g1, s1)
      end
  end
with parse_seq (fuel : nat) (g : nat) (s : string)
  : option (regex * nat * string) :=
  match fuel with
  | O => None
  | S f =>
      match s with
      | EmptyString => Some (Eps, g, s)
      | String c _ =>
          if Ascii.eqb c "|" || Ascii.eqb c ")" then Some (Eps, g, s)
          else
            '(a, g1, s1) ← parse_atom f g s;
            '(q, s2) ← quantify a s1;
            '(r2, g2, s3) ← parse_seq f g1 s2;
            Some (cat q r2, g2, s3)
      end
  end
with parse_atom (fuel : nat) (g : nat) (s : string)
  : option (regex * nat * string) :=
  match fuel with
  | O => None
  | S f =>
      match s with
      | EmptyString => None
      | String c rest =>
          if Ascii.eqb c "(" then
            match rest with
            | String q (String t rest') =>
                if Ascii.eqb q "?" then
                  if Ascii.eqb t ":" then
                    '(r, g1, s1) ← parse_alt f g rest';
                    s2 ← expect ")" s1; Some (r, g1, s2)
                  else if Ascii.eqb t "=" then
                    '(r, g1, s1) ← parse_alt f g rest';
                    s2 ← expect ")" s1; Some (Look true r, g1, s2)
                  else if Ascii.eqb t "!" then
                    '(r, g1, s1) ← parse_alt f g rest';
                    s2 ← expect ")" s1; Some (Look false r, g1, s2)
                  else None
                else
                  '(r, g1, s1) ← parse_alt f (S g) rest;
                  s2 ← expect ")" s1; Some (Group (S g) r, g1, s2)
            | _ =>
                '(r, g1, s1) ← parse_alt f (S g) rest;
                s2 ← expect ")" s1; Some (Group (S g) r, g1, s2)
            end
          else if Ascii.eqb c "[" then
            match rest with
            | String n rest' =>
                if Ascii.eqb n "^" then
                  '(rs, s1) ← parse_class (String.length rest') [] rest';
                  Some (Chars true rs, g, s1)
                else
                  '(rs, s1) ← parse_class (String.length rest) [] rest;
                  Some (Chars false rs, g, s1)
            | EmptyString => None
            end
          else if Ascii.eqb c "." then
            Some (Chars true [(chr 10, chr 10)], g, rest)
          else if Ascii.eqb c "\" then
            match rest with
            | String e rest' =>
                match escape_set e with
                | Some (neg, rs) => Some (Chars neg rs, g, rest')
                | None =>
                    x ← escape_char e; Some (Chars false [(x, x)], g, rest')
                end
            | EmptyString => None
            end
          else if is_quant_char c || Ascii.eqb c "^" || Ascii.eqb c "$" then None
          else Some (Chars false [(c, c)], g, rest)
      end
  end.

(** [re.compile]: the whole string has to be one pattern. *)
Definition compile (pattern : string) : option regex :=
  match parse_alt (4 * String.length pattern + 4) 0 pattern with
  | Some (r, _, EmptyString) => Some r
  | _ => None
  end.

End ReParse.


(** ** The tabular reader: [pd.read_csv(filename, sep='\t', names=...)]

    What the module relies on: lines are records, tabs separate fields,
    blank lines are skipped, a field that is empty (or one of the other
    missing-value spellings) reads as [nan]. With [names=None] the first
    record is the header; with a list of names every record is data.

    The first data record fixes the width of the table, which is at
    least the number of column names. A later record that is shorter is
    padded with [nan]; one that is longer is an error. When the table is
    wider than there are names, the names go to the last columns and the
    leading fields of each record become the label of its row (the
    index); otherwise the rows are labelled [0, 1, 2, ...].

    Left abstract: a field keeps its text, where the reader turns a
    column whose fields are all numeric into numbers; quoting is not
    modelled. *)

Module Pandas.

Definition na_values : list string :=
  [""; "#N/A"; "#N/A N/A"; "#NA"; "-1.#IND"; "-1.#QNAN"; "-NaN"; "-nan";
   "1.#IND"; "1.#QNAN"; "<NA>"; "N/A"; "NA"; "NULL"; "NaN"; "None"; "n/a";
   "nan"; "null"].

Definition cell_of_field (f : string) : pyval :=
  if bool_decide (f ∈ na_values) then PyNaN else PyStr f.

(** A table: the label of each row, the column names, and the cells of
    each row under those names. *)
Record DataFrame := {
  df_index : list pyval;
  df_columns : list string;
  df_data : list (list pyval)
}.

(** A row as [iterrows] hands it out: the values labelled by the column
    names. *)
Definition Series := list (string * pyval).

(** The records of a file: its lines, blank ones dropped. *)
Definition records (content : string) : list string :=
  List.filter (λ l, negb (String.eqb l "")) (Str.split Str.LF content).

Definition pad {A} (n : nat) (x : A) (l : list A) : list A :=
  l ++ replicate (n - List.length l) x.

(** The number of fields of a record. *)
Definition field_count (line : string) : nat :=
  List.length (Str.split Str.TAB line).

(** The fields of one record of a table of [width] columns. *)
Definition parse_record (width : nat) (line : string) : result (list pyval) :=
  let fields := Str.split Str.TAB line in
  if (List.length fields <=? width)%nat
  then Ok (pad width PyNaN (cell_of_field <$> fields))
  else Raise (Exn ParserError "Error tokenizing data").

(** The width of the table: the number of fields of the first data
    record, and at least the number of names. *)
Definition table_width (names : list string) (data : list string) : nat :=
  match data with
  | [] => List.length names
  | first :: _ => Nat.max (field_count first) (List.length names)
  end.

(** One level of a row label. *)
Definition level_of (v : pyval) : option string :=
  match v with
  | PyStr f => Some f
  | _ => None
  end.

(** The label of row [i]: its number when no field is left over for the
    index, the leading field when there is one, the tuple of the leading
    fields when there are several. *)
Definition row_label (leading : nat) (i : nat) (fields : list pyval) : pyval :=
  match leading with
  | 0 => PyInt i
  | 1 => default PyNaN (head fields)
  | _ => PyKey (level_of <$> take leading fields)
  end.

(** The table made of parsed records of [width] fields: the fields in
    excess of the names label the rows, the names go to the others. *)
Definition frame (names : list string) (width : nat)
  (rows : list (list pyval)) : DataFrame :=
  let leading := width - List.length names in
  {| df_index := imap (row_label leading) rows;
     df_columns := names;
     df_data := drop leading <$> rows |}.

Definition read_table (names : list string) (data : list string)
  : result DataFrame :=
  let width := table_width names data in
  rows ← mapM (parse_record width) data;
  Ok (frame names width rows).

Definition read_csv (content : string) (names : option (list string))
  : result DataFrame :=
  match names, records content with
  | _, [] => Raise (Exn EmptyDataError "No columns to parse from file")
  | None, header :: data => read_table (Str.split Str.TAB header) data
  | Some ns, data =>
      if bool_decide (NoDup ns) then read_table ns data
      else Raise (Exn ValueError "Duplicate names are not allowed.")
  end.

(** The number of data rows of a file as the reader sees it: its
    records, less the header when the names come from the file. *)
Definition header_rows (names : option (list string)) : nat :=
  if names is None then 1 else 0.

Definition data_rows (content : string) (names : option (list string)) : nat :=
  List.length (records content) - header_rows names.

(** No data record of the file has more fields than there are column
    names (those of the header record, or those passed). *)
Definition no_extra_fields (content : string) (names : option (list string))
  : Prop :=
  match names, records content with
  | None, header :: data =>
      Forall (λ line, (field_count line ≤ field_count header)%nat) data
  | Some ns, data =>
      Forall (λ line, (field_count line ≤ List.length ns)%nat) data
  | None, [] => True
  end.

(** [data.iterrows()]: the rows with their labels. *)
Definition iterrows (df : DataFrame) : list (pyval * Series) :=
  zip (df_index df) (zip (df_columns df) <$> df_data df).

Definition series_find (r : Series) (label : string) : option pyval :=
  snd <$> List.find (λ p, String.eqb p.1 label) r.

(** [label in r] *)
Definition series_contains (r : Series) (label : string) : bool :=
  bool_decide (is_Some (series_find r label)).

(** [r[label]] *)
Definition series_getitem (r : Series) (label : string) : result pyval :=
  match series_find r label with
  | Some v => Ok v
  | None => Raise (Exn KeyError label)
  end.

(** [r.get(label, default)] *)
Definition series_get (r : Series) (label : string) (dflt : pyval) : pyval :=
  default dflt (series_find r label).

End Pandas.

(** ** The optional [nltk] package and the world a call runs in *)

Module World.

(** What [from_text] asks of [nltk]: the data lookup, the download, and
    the two tokenizers; each may raise. *)
Record nltk_module := {
  nltk_data_find : string → result unit;
  nltk_download : string → result unit;
  nltk_word_tokenize : string → string → result (list string);
  nltk_sent_tokenize : string → string → result (list string)
}.

(** The files that can be read, by path; the [nltk] package when it can
    be imported; and, for [re], what [re.findall] answers on a pattern
    that [ReParse.compile] does not read: the list it returns for a
    pattern in the rest of the syntax, or the [re.error] it raises for a
    malformed one. *)
Record world := {
  files : gmap string string;
  nltk : option nltk_module;
  re_rest : string → string → result (list pyval)
}.

(** [open(filename).read()] *)
Definition open_read (w : world) (filename : pyval) : result string :=
  match filename with
  | PyStr path =>
      match files w !! path with
      | Some content => Ok content
      | None => Raise (Exn IOError "No such file or directory")
      end
  | _ => Raise (Exn TypeError "invalid file")
  end.

(** [import nltk] *)
Definition import_nltk (w : world) : result nltk_module :=
  match nltk w with
  | Some n => Ok n
  | None => Raise (Exn ImportError "No module named nltk")
  end.

(** [re.findall(pattern, text)]: the matcher of [Re] for the patterns it
    covers, the library's answer for the others. *)
Definition re_findall (w : world) (pattern text : string)
  : result (list pyval) :=
  match ReParse.compile pattern with
  | Some r => Ok (Re.findall_re r text)
  | None => re_rest w pattern text
  end.

End World.

(** ** [featurex/stimuli/text.py] *)

Module Text.
Import World Pandas.

(** *** Stimulus objects

    An instance is its class and its attribute dictionary; [self.a = v]
    adds an entry, reading an attribute that was never set raises
    [AttributeError]. The base class [Stim] is taken to contribute no
    data attribute. *)

Inductive stim_class :=
| CTextStim
| CDynamicTextStim.

Record Stim := {
  stim_cls : stim_class;
  stim_dict : gmap string pyval
}.

Definition new (c : stim_class) : Stim :=
  {| stim_cls := c; stim_dict := ∅ |}.

Definition setattr (self : Stim) (a : string) (v : pyval) : Stim :=
  {| stim_cls := stim_cls self; stim_dict := <[a := v]> (stim_dict self) |}.

Definition getattr (self : Stim) (a : string) : result pyval :=
  match stim_dict self !! a with
  | Some v => Ok v
  | None => Raise (Exn AttributeError a)
  end.

(** [TextStim.__init__(self, filename=None, text=None)] *)
Definition TextStim_init (w : world) (self : Stim) (filename text : pyval)
  : result Stim :=
  text ← (if is_None filename then Ok text
          else content ← open_read w filename; Ok (PyStr content));
  Ok (setattr self "text" text).

(** The call [TextStim(filename, text)]. *)
Definition TextStim (w : world) (filename text : pyval) : result Stim :=
  TextStim_init w (new CTextStim) filename text.

(** [DynamicTextStim.__init__(self, text, order, onset=None, duration=None)] *)
Definition DynamicTextStim_init (w : world) (self : Stim)
  (text order onset duration : pyval) : result Stim :=
  let self := setattr self "order" order in
  let self := setattr self "onset" onset in
  let self := setattr self "duration" duration in
  TextStim_init w self PyNone text.

(** The call [DynamicTextStim(text, order, onset, duration)]. *)
Definition DynamicTextStim (w : world) (text order onset duration : pyval)
  : result Stim :=
  DynamicTextStim_init w (new CDynamicTextStim) text order onset duration.

(** An instance built by a call [TextStim(...)]. *)
Definition is_plain (s : Stim) : Prop :=
  ∃ w filename text, TextStim w filename text = Ok s.

(** *** Collections *)

Record ComplexTextStim := { elements : list Stim }.

Definition tod_names : gmap string string :=
  <["t" := "text"]> (<["o" := "onset"]> (<["d" := "duration"]> ∅)).

(** [d.values()] *)
Definition dict_values (d : gmap string string) : list string :=
  (map_to_list d).*2.

(** [d[k]] *)
Definition dict_getitem (d : gmap string string) (k : string) : result string :=
  match d !! k with
  | Some v => Ok v
  | None => Raise (Exn KeyError k)
  end.

(** [readline().strip().split('\t')] on the content of the file. *)
Definition first_row (content : string) : list string :=
  Str.split Str.TAB (Str.strip (Str.readline content)).

(** The first line of a file, without its newline. *)
Fixpoint first_line (content : string) : string :=
  match content with
  | EmptyString => EmptyString
  | String c rest =>
      if Ascii.eqb c Str.LF then EmptyString else String c (first_line rest)
  end.

(** The tokens in the words of the specification: the first line of the
    file, split on tabs. *)
Definition spec_first_row (content : string) : list string :=
  Str.split Str.TAB (first_line content).

(** [len(set(first_row) & set(tod_names.values()))] as a condition. *)
Definition has_header (row : list string) : bool :=
  let common : gset string :=
    list_to_set row ∩ list_to_set (dict_values tod_names) in
  negb (size common =? 0)%nat.

(** The column a character of the [columns] argument stands for, in the
    words of the docstring: [t] for text, [o] for onset, [d] for
    duration. *)
Definition spec_column_name (c : string) : string :=
  if String.eqb c "t" then "text"
  else if String.eqb c "o" then "onset"
  else "duration".

(** The [col_names] handed to the reader. *)
Definition col_names (row : list string) (columns : string)
  : result (option (list string)) :=
  if has_header row then Ok None
  else names ← mapM (dict_getitem tod_names) (Str.chars columns); Ok (Some names).

(** The body of the loop over [data.iterrows()]: the element built for
    row [r] with label [i]. *)
Definition row_element (w : world) (default_duration : pyval)
  (i : pyval) (r : Series) : result Stim :=
  if negb (series_contains r "onset") then
    text ← series_getitem r "text";
    TextStim w text PyNone
  else
    let duration := series_get r "duration" PyNone in
    let duration := if is_None duration then default_duration else duration in
    text ← series_getitem r "text";
    onset ← series_getitem r "onset";
    DynamicTextStim w text i onset duration.

(** The loop itself, appending to [self.elements]. *)
Fixpoint from_file_loop (w : world) (default_duration : pyval)
  (rows : list (pyval * Series)) (elems : list Stim) : result (list Stim) :=
  match rows with
  | [] => Ok elems
  | (i, r) :: rest =>
      elem ← row_element w default_duration i r;
      from_file_loop w default_duration rest (elems ++ [elem])
  end.

(** The end of [_from_file], from the table on: the loop over its rows,
    which fills [self.elements]. *)
Definition from_rows (w : world) (self : ComplexTextStim)
  (default_duration : pyval) (data : DataFrame) : result ComplexTextStim :=
  elems ← from_file_loop w default_duration (iterrows data) (elements self);
  Ok {| elements := elems |}.

(** [ComplexTextStim._from_file(self, filename, columns, default_duration)] *)
Definition _from_file (w : world) (self : ComplexTextStim)
  (filename columns : string) (default_duration : pyval)
  : result ComplexTextStim :=
  content ← open_read w (PyStr filename);
  names ← col_names (first_row content) columns;
  data ← read_csv content names;
  from_rows w self default_duration data.

(** [ComplexTextStim.__init__(self, filename=None, columns='tod',
    default_duration=None)] *)
Definition ComplexTextStim_init (w : world) (filename : option string)
  (columns : string) (default_duration : pyval) : result ComplexTextStim :=
  let self := {| elements := [] |} in
  match filename with
  | Some f => _from_file w self f columns default_duration
  | None => Ok self
  end.

(** *** Segmentation *)

(** The [tokenizer] argument: a pattern string, or an object with a
    [tokenize] method. *)
Inductive tokenizer_arg :=
| TokPattern (pattern : string)
| TokObject (tokenize : string → result (list string)).

Definition patt : string :=
  "[A-Z\-']{2,}(?![a-z])|[A-Z\-'][a-z\-']+(?=[A-Z])|['\w\-]+".

(** The characters of a word in the sense of the built-in pattern: the
    characters of [\w] (letters, digits, the underscore), the hyphen and
    the apostrophe. *)
Definition is_token_char (c : ascii) : bool :=
  Re.char_matches false ReParse.word_ranges c
  || Ascii.eqb c "-" || Ascii.eqb c "'".

Definition unit_error : exn :=
  Exn ValueError "unit must be either 'word' or 'sentence'".

Definition no_nltk_error : exn :=
  Exn ImportError
    "If no tokenizer is passed and nltk is not installed, unit must be set to  'word'.".

(** [try: nltk.data.find('punkt.zip') except LookupError:
    nltk.download('punkt')] *)
Definition ensure_punkt (n : nltk_module) : result unit :=
  match nltk_data_find n "punkt.zip" with
  | Ok u => Ok u
  | Raise e =>
      if is_LookupError (exn_cls e)
      then nltk_download n "punkt" else Raise e
  end.

(** The body of the outer [try] block. *)
Definition nltk_tokens (w : world) (text unit_ language : string)
  : result (list pyval) :=
  n ← import_nltk w;
  _ ← ensure_punkt n;
  if String.eqb unit_ "word" then
    toks ← nltk_word_tokenize n text language; Ok (map PyStr toks)
  else if Str.startswith "sent" unit_ then
    toks ← nltk_sent_tokenize n text language; Ok (map PyStr toks)
  else Raise unit_error.

(** The tokens, by explicit tokenizer or by [nltk] with its fallback. *)
Definition tokens_of (w : world) (text unit_ : string)
  (tokenizer : option tokenizer_arg) (language : string)
  : result (list pyval) :=
  match tokenizer with
  | Some (TokPattern p) => re_findall w p text
  | Some (TokObject tokenize) => toks ← tokenize text; Ok (map PyStr toks)
  | None =>
      try_except (nltk_tokens w text unit_ language)
        (λ _, if negb (String.eqb unit_ "word") then Raise no_nltk_error
              else re_findall w patt text)
  end.

(** The final loop, [cts.elements.append(TextStim(text=t))]. *)
Fixpoint from_text_loop (w : world) (tokens : list pyval) (elems : list Stim)
  : result (list Stim) :=
  match tokens with
  | [] => Ok elems
  | t :: rest =>
      elem ← TextStim w PyNone t;
      from_text_loop w rest (elems ++ [elem])
  end.

(** [ComplexTextStim.from_text(text, unit='word', tokenizer=None,
    language='english')] *)
Definition from_text (w : world) (text unit_ : string)
  (tokenizer : option tokenizer_arg) (language : string)
  : result ComplexTextStim :=
  tokens ← tokens_of w text unit_ tokenizer language;
  cts ← ComplexTextStim_init w None "tod" PyNone;
  elems ← from_text_loop w tokens (elements cts);
  Ok {| elements := elems |}.

End Text.

(** ** Extraction: [featurex.core] and the two [extract] methods

    An extractor is a black box with a name, the name of its target class
    and an [apply] that returns; the type [Res] of what it returns for one
    stimulus is left open. *)

Module Extract.
Import World Text.

Section Extraction.

Context {Res : Type}.

(** Modelled from the spec: the class [Event] of [featurex.core], which is
    not among the sources. An event has one onset (possibly [None]) and a
    mapping from extractor names to values. *)
Record Event := {
  ev_onset : pyval;
  ev_values : gmap string Res
}.

(** Modelled from the spec: [Event(onset=...)], an event without values. *)
Definition Event_init (onset : pyval) : Event :=
  {| ev_onset := onset; ev_values := ∅ |}.

(** Modelled from the spec: [Event.add_value], attaching the value an
    extractor produced under that extractor's name. *)
Definition add_value (ev : Event) (name : string) (v : Res) : Event :=
  {| ev_onset := ev_onset ev; ev_values := <[name := v]> (ev_values ev) |}.

(** Modelled from the spec: the class [Timeline] of [featurex.core], an
    ordered sequence of events. *)
Record Timeline := { events : list Event }.

Definition Timeline_init : Timeline := {| events := [] |}.

(** Modelled from the spec: the merge step of [Timeline.add_event]. The
    first event with the onset of [ev] takes the values of [ev], the
    incoming value winning on a common key; [None] when no event has
    that onset. *)
Fixpoint merge_event (ev : Event) (evs : list Event) : option (list Event) :=
  match evs with
  | [] => None
  | e :: rest =>
      if bool_decide (ev_onset e = ev_onset ev)
      then Some ({| ev_onset := ev_onset e;
                    ev_values := ev_values ev ∪ ev_values e |} :: rest)
      else cons e <$> merge_event ev rest
  end.

(** Modelled from the spec: [Timeline.add_event(event, merge)]. *)
Definition add_event (tl : Timeline) (ev : Event) (merge : bool) : Timeline :=
  if merge then
    match merge_event ev (events tl) with
    | Some evs => {| events := evs |}
    | None => {| events := events tl ++ [ev] |}
    end
  else {| events := events tl ++ [ev] |}.

(** Modelled from the spec: the extractor interface, [name], [target]
    (the [__name__] of the target class) and [apply], which yields a
    value for a stimulus and a sequence of events for a collection. *)
Record Extractor := {
  name : string;
  target : string;
  apply : Stim → Res;
  apply_collection : ComplexTextStim → list Event
}.

(** Modelled from the spec: the class [Value] of [featurex.core], holding
    the stimulus, the extractor and the data it is constructed with. *)
Record Value := {
  value_stim : Stim;
  value_extractor : Extractor;
  value_data : gmap string Res
}.

(** The loop of [TextStim.extract]: the dictionary [vals] and the
    binding of the loop variable [e] after each iteration. *)
Fixpoint extract_loop (self : Stim) (extractors : list Extractor)
  (vals : gmap string Res) (e : option Extractor)
  : gmap string Res * option Extractor :=
  match extractors with
  | [] => (vals, e)
  | x :: rest => extract_loop self rest (<[name x := apply x self]> vals) (Some x)
  end.

(** [TextStim.extract(self, extractors)]; with no extractor the name [e]
    is unbound at the [return]. *)
Definition TextStim_extract (self : Stim) (extractors : list Extractor)
  : result Value :=
  let '(vals, e) := extract_loop self extractors ∅ None in
  match e with
  | Some e => Ok {| value_stim := self; value_extractor := e; value_data := vals |}
  | None => Raise (Exn NameError "local variable 'e' referenced before assignment")
  end.

(** The last extractor of a list that bears the name [k]. *)
Fixpoint last_named (k : string) (extractors : list Extractor)
  : option Extractor :=
  match extractors with
  | [] => None
  | x :: rest =>
      match last_named k rest with
      | Some y => Some y
      | None => if String.eqb (name x) k then Some x else None
      end
  end.

(** [for ev in events: timeline.add_event(ev, merge=merge_events)] *)
Definition add_events (tl : Timeline) (evs : list Event) (merge : bool)
  : Timeline :=
  foldl (λ tl ev, add_event tl ev merge) tl evs.

(** The [else] branch of [ComplexTextStim.extract]: one event per
    element, its onset read from the element. *)
Fixpoint extract_elements (ext : Extractor) (merge : bool)
  (elems : list Stim) (tl : Timeline) : result Timeline :=
  match elems with
  | [] => Ok tl
  | elem :: rest =>
      onset ← getattr elem "onset";
      let event := Event_init onset in
      let event := add_value event (name ext) (apply ext elem) in
      extract_elements ext merge rest (add_event tl event merge)
  end.

(** [ext.target.__name__ == self.__class__.__name__] *)
Definition targets_collection (ext : Extractor) : bool :=
  String.eqb (target ext) "ComplexTextStim".

Fixpoint extract_extractors (self : ComplexTextStim)
  (extractors : list Extractor) (merge : bool) (tl : Timeline)
  : result Timeline :=
  match extractors with
  | [] => Ok tl
  | ext :: rest =>
      tl ← (if targets_collection ext
            then Ok (add_events tl (apply_collection ext self) merge)
            else extract_elements ext merge (elements self) tl);
      extract_extractors self rest merge tl
  end.

(** [ComplexTextStim.extract(self, extractors, merge_events=True)] *)
Definition ComplexTextStim_extract (self : ComplexTextStim)
  (extractors : list Extractor) (merge_events : bool) : result Timeline :=
  extract_extractors self extractors merge_events Timeline_init.

End Extraction.

Arguments Event : clear implicits.
Arguments Timeline : clear implicits.
Arguments Extractor : clear implicits.
Arguments Value : clear implicits.

End Extract.

(** ** Sample files, worlds and extractors *)

Module Samples.
Import World Pandas Text Extract.

(** A tab-separated file: fields joined by tabs, one line per record. *)
Definition tsv_line (fields : list string) : string :=
  String.concat (String Str.TAB "") fields +:+ String Str.LF "".

Definition tsv (rows : list (list string)) : string :=
  String.concat "" (tsv_line <$> rows).

(** A header without an onset column. *)
Definition text_only_file : string := tsv [["text"]; ["hello"]].

(** A full header; the first record has an empty duration field. *)
Definition timed_file : string :=
  tsv [["text"; "onset"; "duration"]; ["hello"; "0.5"; ""]; ["world"; "1.0"; "0.3"]].

(** No header; onsets first, then the text. *)
Definition bare_file : string := tsv [["0.5"; "hello"]; ["1.0"; "world"]].

(** No header; a name, the onset, the text: one field more than the two
    a call with [columns='ot'] names. *)
Definition labelled_file : string :=
  tsv [["x"; "0.5"; "hello"]; ["y"; "1.0"; "world"]].

(** A header whose names are set off by a blank before the first and
    after the last. *)
Definition padded_header_file : string :=
  tsv [[" onset"; "text "]; ["0.5"; "hello"]].

(** The sample worlds leave out the part of [re] that the matcher does
    not cover: a call that needs it has no answer there, which shows as
    [NotImplementedError]. The samples below use no such pattern. *)
Definition no_re_rest (pattern text : string) : result (list pyval) :=
  Raise (Exn NotImplementedError pattern).

Definition no_nltk (fs : gmap string string) : world :=
  {| files := fs; nltk := None; re_rest := no_re_rest |}.

(** An [nltk] whose data is present and whose tokenizers return the text
    as its only token. *)
Definition toy_nltk : nltk_module :=
  {| nltk_data_find := λ _, Ok ();
     nltk_download := λ _, Ok ();
     nltk_word_tokenize := λ text _, Ok [text];
     nltk_sent_tokenize := λ text _, Ok [text] |}.

Definition with_nltk (fs : gmap string string) : world :=
  {| files := fs; nltk := Some toy_nltk; re_rest := no_re_rest |}.

(** An element-level extractor that measures the attribute dictionary. *)
Definition size_extractor (nm : string) : Extractor nat :=
  {| name := nm; target := "TextStim";
     apply := λ s, size (stim_dict s);
     apply_collection := λ _, [] |}.

(** An element-level extractor that answers a constant. *)
Definition const_extractor (nm : string) (n : nat) : Extractor nat :=
  {| name := nm; target := "TextStim";
     apply := λ _, n;
     apply_collection := λ _, [] |}.

(** The instance [TextStim(text=t)] ends up as. *)
Definition plain_stim (t : pyval) : Stim :=
  {| stim_cls := CTextStim; stim_dict := {["text" := t]} |}.

(** The instance [DynamicTextStim(text, order, onset, duration)] ends up
    as. *)
Definition dynamic_stim (text order onset duration : pyval) : Stim :=
  {| stim_cls := CDynamicTextStim;
     stim_dict := <["text" := text]> (<["duration" := duration]>
                    (<["onset" := onset]> {["order" := order]})) |}.

End Samples.

(** * Properties *)

Import Re ReParse World Pandas Text Extract Samples.

(** ** Stimulus construction *)

Lemma TextStim_text_only w t : TextStim w PyNone t = Ok (plain_stim t).
Proof. reflexivity. Qed.

Lemma TextStim_from_file w path content :
  files w !! path = Some content →
  TextStim w (PyStr path) PyNone = Ok (plain_stim (PyStr content)).
Proof.
  intros Hf. unfold TextStim, TextStim_init. simpl. by rewrite Hf.
Qed.

Lemma TextStim_missing_file w path t :
  files w !! path = None →
  TextStim w (PyStr path) t = Raise (Exn IOError "No such file or directory").
Proof.
  intros Hf. unfold TextStim, TextStim_init. simpl. by rewrite Hf.
Qed.

(** Whatever its arguments, [TextStim(...)] sets the attribute [text] and
    no other. *)
Lemma TextStim_attrs w f t s :
  TextStim w f t = Ok s → ∃ v, s = plain_stim v.
Proof.
  unfold TextStim, TextStim_init. destruct (is_None f); simpl.
  - intros [= <-]. by eexists.
  - destruct (open_read w f); simpl; [|done]. intros [= <-]. by eexists.
Qed.

Lemma plain_stim_no_onset t :
  getattr (plain_stim t) "onset" = Raise (Exn AttributeError "onset").
Proof. reflexivity. Qed.

Lemma DynamicTextStim_ok w text order onset duration :
  ∃ s, DynamicTextStim w text order onset duration = Ok s
       ∧ stim_cls s = CDynamicTextStim
       ∧ getattr s "text" = Ok text
       ∧ getattr s "order" = Ok order
       ∧ getattr s "onset" = Ok onset
       ∧ getattr s "duration" = Ok duration.
Proof.
  eexists. split; [reflexivity|]. repeat split; reflexivity.
Qed.

(** C1. On a file whose header names only [text], the element for the row
    ["hello"] is built by [TextStim(r['text'])], which binds the row's
    text to the parameter [filename]: the call opens the file named
    [hello]. When there is no such file the whole construction fails with
    [IOError]; when there is one, the element stores that file's content
    and not the row's text. The sibling call in [from_text] passes
    [text=t] and stores the text itself. *)
Theorem C1_row_text_is_opened_as_a_file :
  ComplexTextStim_init (no_nltk {["stims.txt" := text_only_file]})
      (Some "stims.txt") "tod" PyNone
    = Raise (Exn IOError "No such file or directory")
  ∧ ComplexTextStim_init
      (no_nltk (<["hello" := "surprise"]> {["stims.txt" := text_only_file]}))
      (Some "stims.txt") "tod" PyNone
    = Ok {| elements := [plain_stim (PyStr "surprise")] |}
  ∧ from_text (no_nltk ∅) "hello" "word" None "english"
    = Ok {| elements := [plain_stim (PyStr "hello")] |}.
Proof. repeat split; vm_compute; reflexivity. Qed.

Lemma DynamicTextStim_eq w text order onset duration :
  DynamicTextStim w text order onset duration
  = Ok (dynamic_stim text order onset duration).
Proof. reflexivity. Qed.

(** The row loop on a row without onset: the text is used as a path. *)
Lemma row_element_without_onset w dd i r path :
  series_contains r "onset" = false →
  series_getitem r "text" = Ok (PyStr path) →
  row_element w dd i r
  = match files w !! path with
    | Some content => Ok (plain_stim (PyStr content))
    | None => Raise (Exn IOError "No such file or directory")
    end.
Proof.
  intros Hon Htx. unfold row_element. rewrite Hon, Htx. simpl.
  destruct (files w !! path) eqn:Hf.
  - by apply TextStim_from_file.
  - by apply TextStim_missing_file.
Qed.

(** ** Default duration *)

(** The duration a timed row ends up with. *)
Lemma row_element_timed w dd i r text onset :
  series_contains r "onset" = true →
  series_getitem r "text" = Ok text →
  series_getitem r "onset" = Ok onset →
  row_element w dd i r
  = Ok (dynamic_stim text i onset
          (match series_find r "duration" with
           | Some PyNone | None => dd
           | Some d => d
           end)).
Proof.
  intros Hon Htx Hos. unfold row_element, series_get.
  rewrite Hon, Htx, Hos. simpl.
  destruct (series_find r "duration") as [[]|]; reflexivity.
Qed.

(** C2. With [default_duration=1.5] and a file whose first record has a
    duration field that is present but empty, the element's duration is
    [nan], not [1.5]: the reader hands the empty field over as [nan], and
    the test [duration is None] lets it through. The second record keeps
    its own duration. Without a default the first duration is [nan] as
    well. The default is applied only when the file has no duration
    column at all, as the last equation shows. *)
Theorem C2_empty_duration_is_nan_not_default :
  ComplexTextStim_init (no_nltk {["stims.txt" := timed_file]})
      (Some "stims.txt") "tod" (PyFloat (3 # 2))
    = Ok {| elements :=
              [dynamic_stim (PyStr "hello") (PyInt 0) (PyStr "0.5") PyNaN;
               dynamic_stim (PyStr "world") (PyInt 1) (PyStr "1.0") (PyStr "0.3")] |}
  ∧ ComplexTextStim_init (no_nltk {["stims.txt" := timed_file]})
      (Some "stims.txt") "tod" PyNone
    = Ok {| elements :=
              [dynamic_stim (PyStr "hello") (PyInt 0) (PyStr "0.5") PyNaN;
               dynamic_stim (PyStr "world") (PyInt 1) (PyStr "1.0") (PyStr "0.3")] |}
  ∧ ComplexTextStim_init (no_nltk {["stims.txt" := bare_file]})
      (Some "stims.txt") "ot" (PyFloat (3 # 2))
    = Ok {| elements :=
              [dynamic_stim (PyStr "hello") (PyInt 0) (PyStr "0.5") (PyFloat (3 # 2));
               dynamic_stim (PyStr "world") (PyInt 1) (PyStr "1.0") (PyFloat (3 # 2))] |}.
Proof. repeat split; vm_compute; reflexivity. Qed.

(** ** Segmentation: units and the fallback *)

Lemma no_nltk_error_is_ImportError : exn_cls no_nltk_error = ImportError.
Proof. reflexivity. Qed.

Lemma unit_error_is_ValueError : exn_cls unit_error = ValueError.
Proof. reflexivity. Qed.

Lemma eqb_word_false (u : string) : u ≠ "word" → String.eqb u "word" = false.
Proof. intros Hne. by apply String.eqb_neq. Qed.

(** When the [try] block raises, for whatever reason, the handler decides
    by [unit] alone. *)
Lemma tokens_of_handler w text unit_ language e :
  nltk_tokens w text unit_ language = Raise e →
  tokens_of w text unit_ None language
  = if String.eqb unit_ "word" then re_findall w patt text
    else Raise no_nltk_error.
Proof.
  intros Hr. unfold tokens_of, try_except. rewrite Hr.
  by destruct (String.eqb unit_ "word").
Qed.

Lemma nltk_tokens_without_nltk w text unit_ language :
  nltk w = None →
  nltk_tokens w text unit_ language
  = Raise (Exn ImportError "No module named nltk").
Proof. intros Hn. unfold nltk_tokens, import_nltk. by rewrite Hn. Qed.

(** A unit that is neither ['word'] nor starts with ['sent'] never gets
    through the [try] block. *)
Lemma nltk_tokens_invalid_unit w text unit_ language :
  unit_ ≠ "word" → Str.startswith "sent" unit_ = false →
  ∃ e, nltk_tokens w text unit_ language = Raise e.
Proof.
  intros Hw Hs. unfold nltk_tokens.
  destruct (import_nltk w) as [n|e]; simpl; [|by eexists].
  destruct (ensure_punkt n) as [[]|e]; simpl; [|by eexists].
  rewrite (eqb_word_false _ Hw), Hs. by eexists.
Qed.

Lemma from_text_raise w text unit_ tokenizer language e :
  tokens_of w text unit_ tokenizer language = Raise e →
  from_text w text unit_ tokenizer language = Raise e.
Proof. intros Ht. unfold from_text. by rewrite Ht. Qed.

(** With no tokenizer, every invalid unit ends in the handler's
    [ImportError], with or without [nltk]. *)
Lemma from_text_invalid_unit w text unit_ language :
  unit_ ≠ "word" → Str.startswith "sent" unit_ = false →
  from_text w text unit_ None language = Raise no_nltk_error.
Proof.
  intros Hw Hs.
  destruct (nltk_tokens_invalid_unit w text unit_ language Hw Hs) as [e He].
  apply from_text_raise. rewrite (tokens_of_handler _ _ _ _ _ He).
  by rewrite (eqb_word_false _ Hw).
Qed.

(** C3. With [nltk] installed and [unit='paragraph'], the [try] block
    raises the [ValueError] that names the allowed units, but the bare
    [except] around it catches that exception too, and the call ends with
    the [ImportError] about a missing [nltk]. *)
Theorem C3_invalid_unit_ends_in_ImportError :
  nltk_tokens (with_nltk ∅) "a b" "paragraph" "english" = Raise unit_error
  ∧ exn_cls unit_error = ValueError
  ∧ from_text (with_nltk ∅) "a b" "paragraph" None "english"
    = Raise no_nltk_error
  ∧ exn_cls no_nltk_error = ImportError.
Proof. repeat split; vm_compute; reflexivity. Qed.

(** The final loop never fails: every token becomes a plain element,
    appended in order. *)
Lemma from_text_loop_ok w tokens elems :
  from_text_loop w tokens elems = Ok (elems ++ (plain_stim <$> tokens)).
Proof.
  revert elems. induction tokens as [|t rest IH]; intros elems; simpl.
  - by rewrite app_nil_r.
  - rewrite IH. by rewrite <- app_assoc.
Qed.

Lemma from_text_ok w text unit_ tokenizer language tokens :
  tokens_of w text unit_ tokenizer language = Ok tokens →
  from_text w text unit_ tokenizer language
  = Ok {| elements := plain_stim <$> tokens |}.
Proof.
  intros Ht. unfold from_text. rewrite Ht. simpl.
  by rewrite from_text_loop_ok.
Qed.

Lemma from_text_pattern w text unit_ language p r :
  compile p = Some r →
  from_text w text unit_ (Some (TokPattern p)) language
  = Ok {| elements := plain_stim <$> findall_re r text |}.
Proof.
  intros Hc. apply from_text_ok. simpl. unfold re_findall. by rewrite Hc.
Qed.

Lemma patt_compiles : ∃ r, compile patt = Some r.
Proof. eexists. vm_compute. reflexivity. Qed.

(** C7. With no explicit tokenizer, when [nltk] cannot be imported or the
    [try] block raises for any other reason: a unit other than ['word']
    ends the call with the [ImportError]; the unit ['word'] gives what the
    call with the built-in pattern as explicit tokenizer gives, one plain
    element per match of that pattern. *)
Theorem C7_fallback_only_for_words w text unit_ language :
  (nltk w = None ∨ ∃ e, nltk_tokens w text unit_ language = Raise e) →
  (unit_ ≠ "word" →
     from_text w text unit_ None language = Raise no_nltk_error
     ∧ exn_cls no_nltk_error = ImportError)
  ∧ (unit_ = "word" →
     from_text w text unit_ None language
     = from_text w text unit_ (Some (TokPattern patt)) language
     ∧ ∃ r, compile patt = Some r
            ∧ from_text w text unit_ None language
              = Ok {| elements := plain_stim <$> findall_re r text |}).
Proof.
  intros Hun.
  assert (∃ e, nltk_tokens w text unit_ language = Raise e) as [e He].
  { destruct Hun as [Hn|He]; [|done].
    eexists. by apply nltk_tokens_without_nltk. }
  pose proof (tokens_of_handler _ _ _ _ _ He) as Hh.
  split.
  - intros Hw. rewrite (eqb_word_false _ Hw) in Hh. split; [|done].
    by apply from_text_raise.
  - intros ->.
    assert (from_text w text "word" None language
            = from_text w text "word" (Some (TokPattern patt)) language) as Heq.
    { unfold from_text. rewrite Hh. reflexivity. }
    split; [done|].
    destruct patt_compiles as [r Hr]. exists r. split; [done|].
    rewrite Heq. by apply from_text_pattern.
Qed.

Lemma C7_fallback_only_for_words_witness :
  (from_text (no_nltk ∅) "Hi there" "sentence" None "english"
     = Raise no_nltk_error
   ∧ exn_cls no_nltk_error = ImportError)
  ∧ (from_text (no_nltk ∅) "Hi there" "word" None "english"
     = from_text (no_nltk ∅) "Hi there" "word" (Some (TokPattern patt)) "english"
     ∧ ∃ r, compile patt = Some r
            ∧ from_text (no_nltk ∅) "Hi there" "word" None "english"
              = Ok {| elements := plain_stim <$> findall_re r "Hi there" |}).
Proof.
  split.
  - apply (C7_fallback_only_for_words (no_nltk ∅) "Hi there" "sentence" "english").
    + left. reflexivity.
    + discriminate.
  - apply (C7_fallback_only_for_words (no_nltk ∅) "Hi there" "word" "english").
    + left. reflexivity.
    + reflexivity.
Defined.

(** C9. Without [nltk], [from_text("It's a wonderful life.")] with the
    default unit ['word'] goes through the built-in pattern and yields
    the four elements [It's], [a], [wonderful], [life]; the final period
    matches no alternative of the pattern and is left out. *)
Theorem C9_fallback_tokens_of_wonderful_life w :
  nltk w = None →
  re_findall w patt "It's a wonderful life."
    = Ok [PyStr "It's"; PyStr "a"; PyStr "wonderful"; PyStr "life"]
  ∧ from_text w "It's a wonderful life." "word" None "english"
    = Ok {| elements := [plain_stim (PyStr "It's"); plain_stim (PyStr "a");
                         plain_stim (PyStr "wonderful");
                         plain_stim (PyStr "life")] |}.
Proof.
  intros Hn.
  assert (re_findall w patt "It's a wonderful life."
          = Ok [PyStr "It's"; PyStr "a"; PyStr "wonderful"; PyStr "life"]) as Hf.
  { unfold re_findall.
    destruct (compile patt) as [r|] eqn:Hc; [|vm_compute in Hc; discriminate].
    vm_compute in Hc. injection Hc as <-. vm_compute. reflexivity. }
  split; [done|].
  rewrite (from_text_ok w _ _ _ _
             [PyStr "It's"; PyStr "a"; PyStr "wonderful"; PyStr "life"]);
    [reflexivity|].
  rewrite (tokens_of_handler _ _ _ _ _
             (nltk_tokens_without_nltk w _ "word" "english" Hn)).
  exact Hf.
Qed.

Lemma C9_fallback_tokens_of_wonderful_life_witness :
  re_findall (no_nltk ∅) patt "It's a wonderful life."
    = Ok [PyStr "It's"; PyStr "a"; PyStr "wonderful"; PyStr "life"]
  ∧ from_text (no_nltk ∅) "It's a wonderful life." "word" None "english"
    = Ok {| elements := [plain_stim (PyStr "It's"); plain_stim (PyStr "a");
                         plain_stim (PyStr "wonderful");
                         plain_stim (PyStr "life")] |}.
Proof.
  apply (C9_fallback_tokens_of_wonderful_life (no_nltk ∅)). reflexivity.
Defined.

(** ** [TextStim.extract] *)

Section ExtractOne.

Context {Res : Type}.
Implicit Types (exts : list (Extractor Res)) (vals : gmap string Res).

Lemma extract_loop_last self exts vals e :
  (extract_loop self exts vals e).2 = from_option Some e (last exts).
Proof.
  revert vals e. induction exts as [|x rest IH]; intros vals e; [done|].
  simpl extract_loop. rewrite IH, last_cons. by destruct (last rest).
Qed.

Lemma extract_loop_lookup self exts vals e k :
  (extract_loop self exts vals e).1 !! k
  = match last_named k exts with
    | Some x => Some (apply x self)
    | None => vals !! k
    end.
Proof.
  revert vals e. induction exts as [|x rest IH]; intros vals e; [done|].
  simpl. rewrite IH. destruct (last_named k rest); [done|].
  destruct (String.eqb_spec (name x) k) as [->|Hne].
  - by rewrite lookup_insert_eq.
  - by rewrite lookup_insert_ne.
Qed.

Lemma extract_loop_dom self exts vals e :
  dom (extract_loop self exts vals e).1
  = dom vals ∪ list_to_set (name <$> exts).
Proof.
  revert vals e. induction exts as [|x rest IH]; intros vals e; simpl.
  - set_solver.
  - rewrite IH, dom_insert_L. set_solver.
Qed.

Lemma last_named_name k exts x : last_named k exts = Some x → name x = k.
Proof.
  induction exts as [|y rest IH]; simpl; [done|].
  destruct (last_named k rest); [by intros [= <-]; apply IH|].
  destruct (String.eqb_spec (name y) k); [by intros [= <-]|done].
Qed.

Lemma last_named_elem k exts x : last_named k exts = Some x → x ∈ exts.
Proof.
  induction exts as [|y rest IH]; simpl; [done|].
  destruct (last_named k rest).
  - intros [= <-]. right. by apply IH.
  - destruct (String.eqb (name y) k); [|done]. intros [= <-]. left.
Qed.

(** With pairwise distinct names, the last extractor named like [x] is
    [x] itself. *)
Lemma last_named_NoDup exts x :
  NoDup (name <$> exts) → x ∈ exts → last_named (name x) exts = Some x.
Proof.
  induction exts as [|y rest IH]; simpl; [by intros _ ?%elem_of_nil|].
  intros [Hy Hnd]%NoDup_cons [->|Hin]%elem_of_cons.
  - destruct (last_named (name y) rest) as [z|] eqn:Hz.
    + exfalso. apply Hy. rewrite <- (last_named_name _ _ _ Hz).
      apply list_elem_of_fmap. exists z. split; [done|].
      by eapply last_named_elem.
    + by rewrite String.eqb_refl.
  - by rewrite (IH Hnd Hin).
Qed.

(** C4, as amended. For a non-empty list of extractors,
    [TextStim.extract] returns one [Value] for the stimulus whose
    extractor is the last of the list. Its dictionary [vals] has exactly
    the extractors' names as keys, and under each name the result of the
    last extractor that bears it; so every extractor has its own entry
    when the names are pairwise distinct, and [vals] has then as many
    entries as there are extractors. *)
Theorem C4_extract_value_of_last_extractor self exts :
  exts ≠ [] →
  ∃ e vals,
    TextStim_extract self exts
    = Ok {| value_stim := self; value_extractor := e; value_data := vals |}
    ∧ last exts = Some e
    ∧ dom vals = list_to_set (name <$> exts)
    ∧ (∀ k, vals !! k = (λ x, apply x self) <$> last_named k exts)
    ∧ (NoDup (name <$> exts) →
       size vals = List.length exts
       ∧ ∀ x, x ∈ exts → vals !! name x = Some (apply x self)).
Proof.
  intros Hne. unfold TextStim_extract.
  pose proof (extract_loop_last self exts ∅ None) as Hl.
  pose proof (extract_loop_dom self exts ∅ None) as Hd.
  pose proof (extract_loop_lookup self exts ∅ None) as Hk.
  destruct (extract_loop self exts ∅ None) as [vals e]. simpl in *.
  destruct (last exts) as [x|] eqn:Hlast;
    [|by apply last_None in Hlast].
  simpl in Hl. subst e. exists x, vals.
  assert (∀ k, vals !! k = (λ x, apply x self) <$> last_named k exts) as Hk'.
  { intros k. rewrite Hk. by destruct (last_named k exts). }
  assert (dom vals = list_to_set (name <$> exts)) as Hd'.
  { rewrite Hd. set_solver. }
  do 4 (split; [done|]). intros Hnd. split.
  - rewrite <- size_dom, Hd', size_list_to_set, length_fmap; done.
  - intros y Hy. rewrite Hk'. by rewrite (last_named_NoDup _ _ Hnd Hy).
Qed.

End ExtractOne.

Lemma C4_extract_value_of_last_extractor_witness :
  ∃ e vals,
    TextStim_extract (plain_stim (PyStr "hi"))
      [const_extractor "a" 1; const_extractor "b" 2]
    = Ok {| value_stim := plain_stim (PyStr "hi");
            value_extractor := e; value_data := vals |}
    ∧ last [const_extractor "a" 1; const_extractor "b" 2] = Some e
    ∧ dom vals
      = list_to_set (name <$> [const_extractor "a" 1; const_extractor "b" 2])
    ∧ (∀ k, vals !! k
            = (λ x, apply x (plain_stim (PyStr "hi")))
              <$> last_named k [const_extractor "a" 1; const_extractor "b" 2])
    ∧ (NoDup (name <$> [const_extractor "a" 1; const_extractor "b" 2]) →
       size vals = List.length [const_extractor "a" 1; const_extractor "b" 2]
       ∧ ∀ x, x ∈ [const_extractor "a" 1; const_extractor "b" 2] →
              vals !! name x = Some (apply x (plain_stim (PyStr "hi")))).
Proof.
  apply (C4_extract_value_of_last_extractor (plain_stim (PyStr "hi"))
           [const_extractor "a" 1; const_extractor "b" 2]).
  discriminate.
Defined.

(** C4, as stated, fails on two extractors that share a name: the second
    result overwrites the first, and [vals] holds one entry for two
    extractors. *)
Lemma C4_shared_name_one_entry :
  TextStim_extract (plain_stim (PyStr "hi"))
    [const_extractor "len" 1; const_extractor "len" 2]
  = Ok {| value_stim := plain_stim (PyStr "hi");
          value_extractor := const_extractor "len" 2;
          value_data := {["len" := 2]} |}
  ∧ size ({["len" := 2]} : gmap string nat)
    ≠ List.length [const_extractor "len" 1; const_extractor "len" 2].
Proof. split; [vm_compute; reflexivity | vm_compute; discriminate]. Qed.

(** ** [ComplexTextStim.extract] on plain elements *)

Lemma is_plain_no_onset s :
  is_plain s → getattr s "onset" = Raise (Exn AttributeError "onset").
Proof.
  intros (w & f & t & Hs). destruct (TextStim_attrs _ _ _ _ Hs) as [v ->].
  apply plain_stim_no_onset.
Qed.

Lemma plain_stim_is_plain t : is_plain (plain_stim t).
Proof. exists (no_nltk ∅), PyNone, t. reflexivity. Qed.

(** What [from_text] returns holds plain elements only. *)
Lemma from_text_elements_plain w text unit_ tokenizer language cts :
  from_text w text unit_ tokenizer language = Ok cts →
  Forall is_plain (elements cts).
Proof.
  intros Hf. destruct (tokens_of w text unit_ tokenizer language) as [toks|e] eqn:Ht.
  - rewrite (from_text_ok _ _ _ _ _ _ Ht) in Hf. injection Hf as <-. simpl.
    apply Forall_fmap, Forall_true. intros t. apply plain_stim_is_plain.
  - by rewrite (from_text_raise _ _ _ _ _ _ Ht) in Hf.
Qed.

Section ExtractAll.

Context {Res : Type}.
Implicit Types (ext : Extractor Res) (exts : list (Extractor Res))
  (tl : Timeline Res).

(** The element-level pass stops at a first element without onset. *)
Lemma extract_elements_plain_head ext merge elem rest tl :
  is_plain elem →
  extract_elements ext merge (elem :: rest) tl
  = Raise (Exn AttributeError "onset").
Proof. intros Hp. simpl. by rewrite (is_plain_no_onset _ Hp). Qed.

Lemma extract_elements_nil ext merge tl :
  extract_elements ext merge [] tl = Ok tl.
Proof. reflexivity. Qed.

Lemma extract_extractors_plain self exts merge tl :
  elements self ≠ [] →
  Forall is_plain (elements self) →
  Exists (λ ext, targets_collection ext = false) exts →
  extract_extractors self exts merge tl = Raise (Exn AttributeError "onset").
Proof.
  intros Hne Hall Hex. revert tl.
  induction exts as [|ext rest IH]; intros tl; [by apply Exists_nil in Hex|].
  simpl. destruct (targets_collection ext) eqn:Ht.
  - apply Exists_cons in Hex as [Hx|Hx]; [congruence|]. simpl. by apply IH.
  - destruct (elements self) as [|elem more]; [done|].
    apply Forall_cons in Hall as [Hp _].
    by rewrite (extract_elements_plain_head _ _ _ _ _ Hp).
Qed.

(** C10, as amended. On a collection that has at least one element and
    whose elements are all plain [TextStim]s, [extract] with at least one
    element-level extractor fails with [AttributeError] on the attribute
    [onset]: the first element-level extractor reads [elem.onset] of the
    first element, which a plain [TextStim] never sets. *)
Theorem C10_extract_on_plain_elements_fails self exts merge_events :
  elements self ≠ [] →
  Forall is_plain (elements self) →
  Exists (λ ext, targets_collection ext = false) exts →
  ComplexTextStim_extract self exts merge_events
  = Raise (Exn AttributeError "onset").
Proof. intros. by apply extract_extractors_plain. Qed.

End ExtractAll.

Lemma C10_extract_on_plain_elements_fails_witness :
  ComplexTextStim_extract
    {| elements := [plain_stim (PyStr "Hi"); plain_stim (PyStr "there")] |}
    [size_extractor "size"] true
  = Raise (Exn AttributeError "onset").
Proof.
  apply (C10_extract_on_plain_elements_fails
           {| elements := [plain_stim (PyStr "Hi"); plain_stim (PyStr "there")] |}
           [size_extractor "size"] true).
  - discriminate.
  - repeat constructor; apply plain_stim_is_plain.
  - left. reflexivity.
Defined.

(** C10, as stated, fails on a collection without elements:
    [from_text("")] returns the empty collection, all of whose elements
    are plain, and [extract] with an element-level extractor on it
    returns the empty timeline, no attribute being read. *)
Lemma C10_empty_collection_extracts :
  from_text (no_nltk ∅) "" "word" None "english" = Ok {| elements := [] |}
  ∧ Forall is_plain (elements {| elements := [] |})
  ∧ targets_collection (size_extractor "size") = false
  ∧ ComplexTextStim_extract {| elements := [] |} [size_extractor "size"] true
    = Ok Timeline_init.
Proof.
  split; [vm_compute; reflexivity|]. split; [constructor|].
  split; reflexivity.
Qed.

(** ** File ingestion: the test on the first line *)

(** A [mapM] that returns has run its function on every item, in order. *)
Lemma mapM_Ok_Forall2 {A B} (f : A → result B) (l : list A) (k : list B) :
  mapM f l = Ok k → Forall2 (λ x y, f x = Ok y) l k.
Proof.
  revert k. induction l as [|x l IH]; intros k; simpl.
  - intros [= <-]. constructor.
  - destruct (f x) as [y|e] eqn:Hx; simpl; [|done].
    destruct (mapM f l) as [k'|e] eqn:Hl; simpl; [|done].
    intros [= <-]. constructor; [done|]. by apply IH.
Qed.

Lemma mapM_Ok_fmap {A B} (f : A → result B) (g : A → B) (l : list A) :
  Forall (λ x, f x = Ok (g x)) l → mapM f l = Ok (g <$> l).
Proof.
  induction 1 as [|x l Hx _ IH]; simpl; [done|].
  rewrite Hx. simpl. by rewrite IH.
Qed.

Lemma dict_values_tod_names : dict_values tod_names = ["onset"; "text"; "duration"].
Proof. vm_compute. reflexivity. Qed.

(** The test on the first row succeeds exactly when one of its tokens is
    a reserved name. *)
Lemma has_header_iff (row : list string) :
  has_header row = true
  ↔ ∃ tok, tok ∈ row ∧ tok ∈ ["text"; "onset"; "duration"].
Proof.
  unfold has_header. rewrite dict_values_tod_names.
  set (common := (list_to_set row ∩ list_to_set ["onset"; "text"; "duration"]
                  : gset string)).
  rewrite negb_true_iff, Nat.eqb_neq, size_non_empty_iff.
  split.
  - intros Hne. apply set_choose in Hne as [tok Htok].
    exists tok. subst common. set_solver.
  - intros (tok & Hr & Hres) Hemp.
    assert (tok ∈ common) as Hin by (subst common; set_solver).
    set_solver.
Qed.

Lemma dict_getitem_tod c :
  c ∈ ["t"; "o"; "d"] → dict_getitem tod_names c = Ok (spec_column_name c).
Proof.
  intros Hc. repeat (apply elem_of_cons in Hc as [->|Hc]); try reflexivity.
  by apply elem_of_nil in Hc.
Qed.

Lemma parse_record_cells width line cells :
  parse_record width line = Ok cells →
  List.length cells = width
  ∧ ∀ j f, Str.split Str.TAB line !! j = Some f →
           cells !! j = Some (cell_of_field f).
Proof.
  unfold parse_record.
  destruct (Nat.leb_spec (List.length (Str.split Str.TAB line)) width) as [Hle|];
    [|done].
  intros [= <-]. unfold pad. split.
  - rewrite length_app, length_replicate, length_fmap. lia.
  - intros j f Hj. rewrite lookup_app_l.
    + by rewrite list_lookup_fmap, Hj.
    + rewrite length_fmap. by eapply lookup_lt_Some.
Qed.

(** ** The tabular reader: what a table that was read holds *)

Lemma table_width_ge names data :
  (List.length names ≤ table_width names data)%nat.
Proof. destruct data; simpl; lia. Qed.

(** When no record is longer than the names, the table is as wide as the
    names. *)
Lemma table_width_fits names data :
  Forall (λ line, (field_count line ≤ List.length names)%nat) data →
  table_width names data = List.length names.
Proof.
  destruct data as [|first rest]; [done|]. intros [Hf _]%Forall_cons.
  simpl. lia.
Qed.

Lemma read_table_rows names data df :
  read_table names data = Ok df →
  ∃ rows,
    Forall2 (λ line fields,
               parse_record (table_width names data) line = Ok fields) data rows
    ∧ df = frame names (table_width names data) rows.
Proof.
  unfold read_table.
  destruct (mapM _ data) as [rows|e] eqn:Hm; simpl; [|done].
  intros [= <-]. exists rows. split; [by apply mapM_Ok_Forall2|done].
Qed.

(** The two ways to call the reader, brought to one: the column names
    and the data records. *)
Lemma read_csv_table content names df :
  read_csv content names = Ok df →
  ∃ cols data,
    read_table cols data = Ok df
    ∧ match names with
      | Some ns => cols = ns ∧ data = records content
      | None => ∃ header, records content = header :: data
                          ∧ cols = Str.split Str.TAB header
      end.
Proof.
  unfold read_csv. destruct names as [ns|].
  - destruct (records content) as [|l0 ls]; [done|].
    destruct (bool_decide (NoDup ns)); [|done].
    intros Hdf. by exists ns, (l0 :: ls).
  - destruct (records content) as [|header data]; [done|].
    intros Hdf. exists (Str.split Str.TAB header), data.
    split; [done|]. by exists header.
Qed.

Lemma read_table_columns names data df :
  read_table names data = Ok df → df_columns df = names.
Proof. by intros (rows & _ & ->)%read_table_rows. Qed.

Lemma read_table_length names data df :
  read_table names data = Ok df →
  List.length (df_data df) = List.length data
  ∧ List.length (df_index df) = List.length data.
Proof.
  intros (rows & Hall & ->)%read_table_rows. simpl.
  rewrite length_fmap, length_imap. by rewrite (Forall2_length _ _ _ Hall).
Qed.

(** Row [i] of a table: the record it comes from, its fields, and how
    they are shared between the label and the cells. *)
Lemma read_table_row names data df i cells :
  read_table names data = Ok df →
  df_data df !! i = Some cells →
  ∃ line fields,
    data !! i = Some line
    ∧ parse_record (table_width names data) line = Ok fields
    ∧ cells = drop (table_width names data - List.length names) fields
    ∧ df_index df !! i
      = Some (row_label (table_width names data - List.length names) i fields).
Proof.
  intros (rows & Hall & ->)%read_table_rows. simpl.
  rewrite list_lookup_fmap, list_lookup_imap.
  destruct (rows !! i) as [fields|] eqn:Hi; simpl; [|done].
  intros [= <-].
  destruct (Forall2_lookup_r _ _ _ _ _ Hall Hi) as (line & Hl & Hp).
  by exists line, fields.
Qed.

(** With [names=None] the columns are the fields of the first record. *)
Lemma read_csv_header content df :
  read_csv content None = Ok df →
  ∃ header data, records content = header :: data
                 ∧ df_columns df = Str.split Str.TAB header
                 ∧ List.length (df_data df) = List.length data.
Proof.
  intros (cols & data & Ht & header & Hr & ->)%read_csv_table.
  exists header, data. split; [done|].
  split; [by eapply read_table_columns|]. by eapply read_table_length.
Qed.

(** With a list of names the columns are those names and every record is
    a data row. *)
Lemma read_csv_names content names df :
  read_csv content (Some names) = Ok df →
  df_columns df = names
  ∧ List.length (df_data df) = List.length (records content).
Proof.
  intros (cols & data & Ht & -> & ->)%read_csv_table.
  split; [by eapply read_table_columns|]. by eapply read_table_length.
Qed.

Lemma read_csv_length content names df :
  read_csv content names = Ok df →
  List.length (df_data df) = data_rows content names.
Proof.
  unfold data_rows. destruct names as [ns|].
  - intros (_ & ->)%read_csv_names. simpl. lia.
  - intros (h & d & -> & _ & ->)%read_csv_header. simpl. lia.
Qed.

Lemma read_csv_index_length content names df :
  read_csv content names = Ok df →
  List.length (df_index df) = List.length (df_data df).
Proof.
  intros (cols & data & Ht & _)%read_csv_table.
  destruct (read_table_length _ _ _ Ht) as [-> ->]. done.
Qed.

(** Row [i] of the table is the [i]-th record of the file after the
    header, if there is one: the fields in excess of the names make its
    label, the others its cells. *)
Lemma read_csv_row content names df i cells :
  read_csv content names = Ok df →
  df_data df !! i = Some cells →
  ∃ line fields leading,
    records content !! (header_rows names + i) = Some line
    ∧ parse_record (leading + List.length (df_columns df)) line = Ok fields
    ∧ cells = drop leading fields
    ∧ df_index df !! i = Some (row_label leading i fields).
Proof.
  intros (cols & data & Ht & Hn)%read_csv_table Hi.
  destruct (read_table_row _ _ _ _ _ Ht Hi) as (line & fields & Hl & Hp & Hc & Hx).
  rewrite (read_table_columns _ _ _ Ht).
  pose proof (table_width_ge cols data) as Hge.
  exists line, fields, (table_width cols data - List.length cols).
  replace (table_width cols data - List.length cols + List.length cols)
    with (table_width cols data) by lia.
  split; [|done].
  destruct names as [ns|].
  - destruct Hn as [-> ->]. done.
  - destruct Hn as (header & -> & ->). done.
Qed.

(** When no record has more fields than there are names, the rows are
    numbered and the cells of a row are the fields of its record, in
    their order. *)
Lemma read_csv_row_fits content names df i cells :
  read_csv content names = Ok df →
  no_extra_fields content names →
  df_data df !! i = Some cells →
  df_index df !! i = Some (PyInt i)
  ∧ ∃ line, records content !! (header_rows names + i) = Some line
            ∧ parse_record (List.length (df_columns df)) line = Ok cells.
Proof.
  intros Hdf Hfit Hi.
  destruct (read_csv_table _ _ _ Hdf) as (cols & data & Ht & Hn).
  assert (table_width cols data = List.length cols) as Hw.
  { apply table_width_fits. unfold no_extra_fields in Hfit.
    destruct names as [ns|].
    - destruct Hn as [-> ->]. by destruct (records content).
    - destruct Hn as (header & Hr & ->). by rewrite Hr in Hfit. }
  destruct (read_table_row _ _ _ _ _ Ht Hi) as (line & fields & Hl & Hp & Hc & Hx).
  rewrite Hw, Nat.sub_diag in Hc, Hx. simpl in Hc, Hx. subst cells.
  rewrite drop_0. split; [done|].
  rewrite (read_table_columns _ _ _ Ht). rewrite Hw in Hp.
  exists line. split; [|done].
  destruct names as [ns|].
  - destruct Hn as [-> ->]. done.
  - destruct Hn as (header & -> & ->). done.
Qed.

(** ** File ingestion: the loop over the rows *)

(** The loop appends one element per row, built from that row. *)
Lemma from_file_loop_inv w dd rows elems out :
  from_file_loop w dd rows elems = Ok out →
  ∃ new, out = elems ++ new
         ∧ Forall2 (λ ir e, row_element w dd ir.1 ir.2 = Ok e) rows new.
Proof.
  revert elems. induction rows as [|[i r] rest IH]; intros elems; simpl.
  - intros [= <-]. exists []. split; [by rewrite app_nil_r|constructor].
  - destruct (row_element w dd i r) as [e|x] eqn:He; simpl; [|done].
    intros (new & -> & Hnew)%IH. exists (e :: new).
    split; [by rewrite <- app_assoc|]. by constructor.
Qed.

(** A loop whose rows all yield an element returns. *)
Lemma from_file_loop_ok w dd rows elems new :
  Forall2 (λ ir e, row_element w dd ir.1 ir.2 = Ok e) rows new →
  from_file_loop w dd rows elems = Ok (elems ++ new).
Proof.
  intros Hall. revert elems.
  induction Hall as [|[i r] e rest new He _ IH]; intros elems; simpl.
  - by rewrite app_nil_r.
  - simpl in He. rewrite He. simpl. rewrite IH. by rewrite <- app_assoc.
Qed.

(** The rows of [iterrows], one by one. *)
Lemma iterrows_lookup_inv df i ir :
  iterrows df !! i = Some ir →
  ∃ label cells, df_index df !! i = Some label
                 ∧ df_data df !! i = Some cells
                 ∧ ir = (label, zip (df_columns df) cells).
Proof.
  unfold iterrows. intros Hi.
  apply lookup_zip_with_Some in Hi as (label & r & -> & Hl & Hr).
  rewrite list_lookup_fmap in Hr.
  destruct (df_data df !! i) as [cells|]; [|done].
  injection Hr as <-. by exists label, cells.
Qed.

Lemma iterrows_lookup df i label cells :
  df_index df !! i = Some label →
  df_data df !! i = Some cells →
  iterrows df !! i = Some (label, zip (df_columns df) cells).
Proof.
  intros Hl Hc. unfold iterrows. apply lookup_zip_with_Some.
  exists label, (zip (df_columns df) cells). split; [done|].
  split; [done|]. by rewrite list_lookup_fmap, Hc.
Qed.

Lemma iterrows_length content names df :
  read_csv content names = Ok df →
  List.length (iterrows df) = List.length (df_data df).
Proof.
  intros Hdf. unfold iterrows.
  rewrite length_zip_with, length_fmap, (read_csv_index_length _ _ _ Hdf). lia.
Qed.

(** An element of class [DynamicTextStim] built for the row labelled [i]
    has that label as its order. *)
Lemma row_element_order w dd i r e :
  row_element w dd i r = Ok e →
  stim_cls e = CDynamicTextStim → getattr e "order" = Ok i.
Proof.
  unfold row_element. destruct (series_contains r "onset"); simpl.
  - destruct (series_getitem r "text") as [t|x]; simpl; [|done].
    destruct (series_getitem r "onset") as [o|x]; simpl; [|done].
    rewrite DynamicTextStim_eq. by intros [= <-] _.
  - destruct (series_getitem r "text") as [t|x]; simpl; [|done].
    intros (v & ->)%TextStim_attrs. done.
Qed.

(** The constructor, step by step: once the file is there and the names
    are settled, the call is the reader followed by the loop. *)
Lemma from_file_steps w filename columns dd content names :
  files w !! filename = Some content →
  col_names (first_row content) columns = Ok names →
  ComplexTextStim_init w (Some filename) columns dd
  = (data ← read_csv content names; from_rows w {| elements := [] |} dd data).
Proof.
  intros Hf Hn. unfold ComplexTextStim_init, _from_file, open_read.
  rewrite Hf. simpl. by rewrite Hn.
Qed.

(** A constructor call that returns has read the file, resolved the
    names, parsed the table and built one element from each row. *)
Lemma from_file_inv w filename columns dd cts :
  ComplexTextStim_init w (Some filename) columns dd = Ok cts →
  ∃ content names df,
    files w !! filename = Some content
    ∧ col_names (first_row content) columns = Ok names
    ∧ read_csv content names = Ok df
    ∧ Forall2 (λ ir e, row_element w dd ir.1 ir.2 = Ok e)
        (iterrows df) (elements cts).
Proof.
  unfold ComplexTextStim_init, _from_file, from_rows, open_read.
  destruct (files w !! filename) as [content|] eqn:Hf; simpl; [|done].
  destruct (col_names (first_row content) columns) as [names|x] eqn:Hn;
    simpl; [|done].
  destruct (read_csv content names) as [df|x] eqn:Hdf; simpl; [|done].
  destruct (from_file_loop w dd (iterrows df) []) as [out|x] eqn:Hl;
    simpl; [|done].
  intros [= <-]. apply from_file_loop_inv in Hl as (new & -> & Hall).
  by exists content, names, df.
Qed.

(** The same, read the other way: the three steps and the loop make the
    call. *)
Lemma from_file_eq w filename columns dd content names df :
  files w !! filename = Some content →
  col_names (first_row content) columns = Ok names →
  read_csv content names = Ok df →
  ComplexTextStim_init w (Some filename) columns dd
  = (elems ← from_file_loop w dd (iterrows df) []; Ok {| elements := elems |}).
Proof.
  intros Hf Hn Hdf. rewrite (from_file_steps _ _ _ _ _ _ Hf Hn).
  by rewrite Hdf.
Qed.

(** ** File ingestion: header or column specification *)

Lemma col_names_header row columns :
  (∃ tok, tok ∈ row ∧ tok ∈ ["text"; "onset"; "duration"]) →
  col_names row columns = Ok None.
Proof. intros Hres%has_header_iff. unfold col_names. by rewrite Hres. Qed.

Lemma col_names_spec row columns :
  ¬ (∃ tok, tok ∈ row ∧ tok ∈ ["text"; "onset"; "duration"]) →
  Forall (λ c, c ∈ ["t"; "o"; "d"]) (Str.chars columns) →
  col_names row columns = Ok (Some (spec_column_name <$> Str.chars columns)).
Proof.
  intros Hno Hchars. unfold col_names.
  destruct (has_header row) eqn:Hh; [by apply has_header_iff in Hh|].
  rewrite (mapM_Ok_fmap _ spec_column_name); [done|].
  eapply Forall_impl; [exact Hchars|]. intros c. apply dict_getitem_tod.
Qed.

(** C5, as amended. Let the tokens be those of the first line of the
    file once the line is stripped of surrounding whitespace and split
    on tabs. If one of them is [text], [onset] or [duration], the
    constructor reads the table without names, whatever [columns] is,
    and the column names are the fields of the header record. Otherwise
    the constructor reads the table under the names spelled by
    [columns], character by character ([t], [o], [d] standing for text,
    onset, duration); every record is then a data row, and when no
    record has more fields than there are names, field [j] of each
    record sits under name [j]. *)
Theorem C5_header_or_column_spec w filename columns dd content :
  files w !! filename = Some content →
  let row := first_row content in
  let reserved := ["text"; "onset"; "duration"] in
  ((∃ tok, tok ∈ row ∧ tok ∈ reserved) →
     ComplexTextStim_init w (Some filename) columns dd
     = (data ← read_csv content None;
        from_rows w {| elements := [] |} dd data)
     ∧ (∀ columns', ComplexTextStim_init w (Some filename) columns' dd
                    = ComplexTextStim_init w (Some filename) columns dd)
     ∧ ∀ df, read_csv content None = Ok df →
         ∃ header data, records content = header :: data
                        ∧ df_columns df = Str.split Str.TAB header)
  ∧ (¬ (∃ tok, tok ∈ row ∧ tok ∈ reserved) →
     Forall (λ c, c ∈ ["t"; "o"; "d"]) (Str.chars columns) →
     let names := spec_column_name <$> Str.chars columns in
     ComplexTextStim_init w (Some filename) columns dd
     = (data ← read_csv content (Some names);
        from_rows w {| elements := [] |} dd data)
     ∧ ∀ df, read_csv content (Some names) = Ok df →
         df_columns df = names
         ∧ List.length (df_data df) = List.length (records content)
         ∧ (no_extra_fields content (Some names) →
            ∀ i line, records content !! i = Some line →
              ∃ cells, df_data df !! i = Some cells
                       ∧ ∀ j f, Str.split Str.TAB line !! j = Some f →
                                cells !! j = Some (cell_of_field f))).
Proof.
  intros Hf row reserved. split.
  - intros Hres. split; [|split].
    + apply (from_file_steps _ _ _ _ _ _ Hf). by apply col_names_header.
    + intros columns'.
      rewrite !(from_file_steps _ _ _ _ _ None Hf); [done|..];
        by apply col_names_header.
    + intros df Hdf.
      destruct (read_csv_header _ _ Hdf) as (header & data & Hr & Hc & _).
      by exists header, data.
  - intros Hno Hchars names. split.
    + apply (from_file_steps _ _ _ _ _ _ Hf). by apply col_names_spec.
    + intros df Hdf. destruct (read_csv_names _ _ _ Hdf) as [Hc Hlen].
      split; [done|]. split; [done|]. intros Hfit i line Hi.
      assert (is_Some (df_data df !! i)) as [cells Hcells].
      { apply lookup_lt_is_Some. rewrite Hlen. by eapply lookup_lt_Some. }
      exists cells. split; [done|].
      destruct (read_csv_row_fits _ _ _ _ _ Hdf Hfit Hcells)
        as (_ & line' & Hl & Hp).
      simpl in Hl. rewrite Hi in Hl. injection Hl as <-.
      by apply parse_record_cells in Hp as [_ ?].
Qed.

Lemma C5_header_or_column_spec_witness :
  (ComplexTextStim_init (no_nltk {["stims.txt" := timed_file]})
     (Some "stims.txt") "dot" PyNone
   = (data ← read_csv timed_file None;
      from_rows (no_nltk {["stims.txt" := timed_file]})
        {| elements := [] |} PyNone data)
   ∧ (∀ columns',
        ComplexTextStim_init (no_nltk {["stims.txt" := timed_file]})
          (Some "stims.txt") columns' PyNone
        = ComplexTextStim_init (no_nltk {["stims.txt" := timed_file]})
            (Some "stims.txt") "dot" PyNone)
   ∧ ∀ df, read_csv timed_file None = Ok df →
       ∃ header data, records timed_file = header :: data
                      ∧ df_columns df = Str.split Str.TAB header)
  ∧ (ComplexTextStim_init (no_nltk {["stims.txt" := bare_file]})
       (Some "stims.txt") "ot" PyNone
     = (data ← read_csv bare_file (Some (spec_column_name <$> Str.chars "ot"));
        from_rows (no_nltk {["stims.txt" := bare_file]})
          {| elements := [] |} PyNone data)
     ∧ ∀ df, read_csv bare_file (Some (spec_column_name <$> Str.chars "ot"))
             = Ok df →
         df_columns df = spec_column_name <$> Str.chars "ot"
         ∧ List.length (df_data df) = List.length (records bare_file)
         ∧ (no_extra_fields bare_file
              (Some (spec_column_name <$> Str.chars "ot")) →
            ∀ i line, records bare_file !! i = Some line →
              ∃ cells, df_data df !! i = Some cells
                       ∧ ∀ j f, Str.split Str.TAB line !! j = Some f →
                                cells !! j = Some (cell_of_field f))).
Proof.
  assert (files (no_nltk {["stims.txt" := timed_file]}) !! "stims.txt"
          = Some timed_file) as Htimed by reflexivity.
  assert (files (no_nltk {["stims.txt" := bare_file]}) !! "stims.txt"
          = Some bare_file) as Hbare by reflexivity.
  split.
  - apply (proj1 (C5_header_or_column_spec
                    (no_nltk {["stims.txt" := timed_file]})
                    "stims.txt" "dot" PyNone timed_file Htimed)).
    exists "text". split.
    + replace (first_row timed_file) with ["text"; "onset"; "duration"]
        by (vm_compute; reflexivity).
      left.
    + left.
  - apply (proj2 (C5_header_or_column_spec
                    (no_nltk {["stims.txt" := bare_file]})
                    "stims.txt" "ot" PyNone bare_file Hbare)).
    + intros Hh%has_header_iff. vm_compute in Hh. discriminate.
    + repeat constructor.
Defined.

(** C5, as stated, fails in its first half on a first line whose
    reserved names are set off by blanks: no token of the line
    [" onset<TAB>text "] equals a reserved name, yet the code strips the
    line before it splits it, finds [onset] and [text], and lets the
    reader take the header from the file, [columns] being ignored. The
    header the reader sees is not stripped, so no column is named
    [text] and the call ends in [KeyError]; read under the names that
    [columns] spells, the same file gives two elements. The second half
    fails on records with more fields than [columns] has characters:
    the names then go to the last fields, not to the first. *)
Lemma C5_stripped_tokens_and_shifted_names :
  spec_first_row padded_header_file = [" onset"; "text "]
  ∧ col_names (first_row padded_header_file) "ot" = Ok None
  ∧ ComplexTextStim_init (no_nltk {["stims.txt" := padded_header_file]})
      (Some "stims.txt") "ot" PyNone
    = Raise (Exn KeyError "text")
  ∧ (data ← read_csv padded_header_file (Some ["onset"; "text"]);
     from_rows (no_nltk ∅) {| elements := [] |} PyNone data)
    = Ok {| elements :=
              [dynamic_stim (PyStr "text ") (PyInt 0) (PyStr " onset") PyNone;
               dynamic_stim (PyStr "hello") (PyInt 1) (PyStr "0.5") PyNone] |}
  ∧ spec_first_row labelled_file = ["x"; "0.5"; "hello"]
  ∧ col_names (first_row labelled_file) "ot" = Ok (Some ["onset"; "text"])
  ∧ read_csv labelled_file (Some ["onset"; "text"])
    = Ok {| df_index := [PyStr "x"; PyStr "y"];
            df_columns := ["onset"; "text"];
            df_data := [[PyStr "0.5"; PyStr "hello"];
                        [PyStr "1.0"; PyStr "world"]] |}.
Proof. repeat split; vm_compute; reflexivity. Qed.

(** ** File ingestion: one element per row *)

(** When [ComplexTextStim(filename, columns, default_duration)] returns a
    collection, the file was read and parsed into a table whose rows are
    the records of the file after the header, in file order; the
    collection has exactly one element per row, element [i] is the one
    the loop body builds for row [i], and every element of class
    [DynamicTextStim] has the label of its row as its order, which is
    the number of the row when no record has more fields than there are
    column names. *)
Lemma from_file_rows_in_order w filename columns dd cts :
  ComplexTextStim_init w (Some filename) columns dd = Ok cts →
  ∃ content names df,
    files w !! filename = Some content
    ∧ col_names (first_row content) columns = Ok names
    ∧ read_csv content names = Ok df
    ∧ List.length (df_data df) = data_rows content names
    ∧ List.length (elements cts) = List.length (df_data df)
    ∧ ∀ i e, elements cts !! i = Some e →
        ∃ label cells,
          df_index df !! i = Some label
          ∧ df_data df !! i = Some cells
          ∧ row_element w dd label (zip (df_columns df) cells) = Ok e
          ∧ (stim_cls e = CDynamicTextStim → getattr e "order" = Ok label)
          ∧ (no_extra_fields content names → label = PyInt i).
Proof.
  intros (content & names & df & Hf & Hn & Hdf & Hall)%from_file_inv.
  exists content, names, df. do 3 (split; [done|]).
  split; [by apply read_csv_length|].
  split; [by rewrite <- (Forall2_length _ _ _ Hall), (iterrows_length _ _ _ Hdf)|].
  intros i e Hi.
  destruct (Forall2_lookup_r _ _ _ _ _ Hall Hi) as (ir & Hr & He).
  apply iterrows_lookup_inv in Hr as (label & cells & Hl & Hc & ->).
  simpl in He. exists label, cells. do 3 (split; [done|]).
  split; [by eapply row_element_order|]. intros Hfit.
  destruct (read_csv_row_fits _ _ _ _ _ Hdf Hfit Hc) as [Hl' _].
  congruence.
Qed.

(** C6. On a file without header whose records have three fields, read
    with [columns='ot'], the reader gives the two names to the last two
    fields and makes the first field the label of the row; the loop
    passes that label on as [order]. The elements come one per record,
    in file order, but their orders are [x] and [y], not [0] and [1].
    On a file whose records have as many fields as there are names the
    orders are the row numbers. *)
Theorem C6_order_is_the_row_label :
  ComplexTextStim_init (no_nltk {["stims.txt" := labelled_file]})
      (Some "stims.txt") "ot" PyNone
    = Ok {| elements :=
              [dynamic_stim (PyStr "hello") (PyStr "x") (PyStr "0.5") PyNone;
               dynamic_stim (PyStr "world") (PyStr "y") (PyStr "1.0") PyNone] |}
  ∧ getattr (dynamic_stim (PyStr "hello") (PyStr "x") (PyStr "0.5") PyNone)
      "order" = Ok (PyStr "x")
  ∧ getattr (dynamic_stim (PyStr "world") (PyStr "y") (PyStr "1.0") PyNone)
      "order" = Ok (PyStr "y")
  ∧ ComplexTextStim_init (no_nltk {["stims.txt" := bare_file]})
      (Some "stims.txt") "ot" PyNone
    = Ok {| elements :=
              [dynamic_stim (PyStr "hello") (PyInt 0) (PyStr "0.5") PyNone;
               dynamic_stim (PyStr "world") (PyInt 1) (PyStr "1.0") PyNone] |}.
Proof. repeat split; vm_compute; reflexivity. Qed.

(** ** Segmentation by a pattern *)

Lemma non_overlapping_le from from' ms :
  (from' ≤ from)%nat → non_overlapping from ms → non_overlapping from' ms.
Proof. destruct ms; simpl; [done|]. intros ? [? ?]. split; [lia|done]. Qed.

(** What one position contributes: nothing, one match, or an empty match
    followed by a second one; [n] is the length of the last. *)
Lemma matches_here_cases r pos s ms n :
  matches_here r pos s = (ms, n) →
  (ms = [] ∧ n = 0)
  ∨ (∃ rest c, match_at r false s = Some (rest, c)
               ∧ ms = [Match pos (consumed s rest) c]
               ∧ n = String.length (consumed s rest))
  ∨ (∃ rest1 c1 rest2 c2,
       match_at r false s = Some (rest1, c1)
       ∧ match_at r true s = Some (rest2, c2)
       ∧ String.length (consumed s rest1) = 0
       ∧ ms = [Match pos (consumed s rest1) c1; Match pos (consumed s rest2) c2]
       ∧ n = String.length (consumed s rest2)).
Proof.
  unfold matches_here.
  destruct (match_at r false s) as [[rest1 c1]|] eqn:H1.
  - destruct (String.length (consumed s rest1)) as [|k] eqn:Hlen.
    + destruct (match_at r true s) as [[rest2 c2]|] eqn:H2.
      * intros [= <- <-]. right. right. by exists rest1, c1, rest2, c2.
      * intros [= <- <-]. right. left. exists rest1, c1. by rewrite Hlen.
    + intros [= <- <-]. right. left. exists rest1, c1. by rewrite Hlen.
  - intros [= <- <-]. by left.
Qed.

Lemma matches_here_non_overlapping r pos s ms n rest :
  matches_here r pos s = (ms, n) →
  non_overlapping (pos + n) rest →
  non_overlapping pos (ms ++ rest).
Proof.
  intros Hm Hrest.
  destruct (matches_here_cases _ _ _ _ _ Hm)
    as [[-> ->]|[(rest1 & c1 & _ & -> & ->)
                |(rest1 & c1 & rest2 & c2 & _ & _ & Hz & -> & ->)]]; simpl.
  - eapply non_overlapping_le; [|exact Hrest]. lia.
  - split; [done|]. exact Hrest.
  - unfold m_end at 1. simpl. rewrite Hz.
    split; [done|]. split; [lia|]. exact Hrest.
Qed.

(** The matches of a scan lie one after the other. *)
Lemma scan_non_overlapping r skip pos s :
  non_overlapping (pos + skip) (scan r skip pos s).
Proof.
  revert skip pos. induction s as [|c s' IH]; intros skip pos.
  - destruct skip as [|k]; simpl; [|done].
    destruct (matches_here r pos "") as [ms n] eqn:Hm. simpl.
    rewrite Nat.add_0_r, <- (app_nil_r ms).
    by apply (matches_here_non_overlapping _ _ _ _ _ _ Hm).
  - destruct skip as [|k]; simpl.
    + destruct (matches_here r pos (String c s')) as [ms n] eqn:Hm.
      rewrite Nat.add_0_r.
      apply (matches_here_non_overlapping _ _ _ _ _ _ Hm).
      eapply non_overlapping_le; [|apply (IH (pred n) (S pos))]. lia.
    + eapply non_overlapping_le; [|apply (IH k (S pos))]. lia.
Qed.

Lemma matches_here_is_match r pos s ms n mo :
  matches_here r pos s = (ms, n) → mo ∈ ms →
  m_start mo = pos
  ∧ ∃ must_advance rest,
      match_at r must_advance s = Some (rest, m_caps mo)
      ∧ m_text mo = consumed s rest.
Proof.
  intros Hm Hin.
  destruct (matches_here_cases _ _ _ _ _ Hm)
    as [[-> ->]|[(rest1 & c1 & H1 & -> & ->)
                |(rest1 & c1 & rest2 & c2 & H1 & H2 & _ & -> & ->)]].
  - by apply elem_of_nil in Hin.
  - apply list_elem_of_singleton in Hin as ->. simpl. split; [done|].
    by exists false, rest1.
  - apply elem_of_cons in Hin as [->|Hin]; simpl.
    + split; [done|]. by exists false, rest1.
    + apply list_elem_of_singleton in Hin as ->. simpl. split; [done|].
      by exists true, rest2.
Qed.

(** Every match of a scan is a match of the pattern at its offset. *)
Lemma scan_is_match r skip pos s mo :
  mo ∈ scan r skip pos s →
  ∃ d, m_start mo = pos + d
       ∧ ∃ must_advance rest,
           match_at r must_advance (str_drop d s) = Some (rest, m_caps mo)
           ∧ m_text mo = consumed (str_drop d s) rest.
Proof.
  revert skip pos. induction s as [|c s' IH]; intros skip pos.
  - destruct skip as [|k]; simpl; [|by intros ?%elem_of_nil].
    destruct (matches_here r pos "") as [ms n] eqn:Hm. simpl. intros Hin.
    destruct (matches_here_is_match _ _ _ _ _ _ Hm Hin) as (Hs & b & rest & ?).
    exists 0. split; [lia|]. by exists b, rest.
  - destruct skip as [|k]; simpl.
    + destruct (matches_here r pos (String c s')) as [ms n] eqn:Hm.
      intros [Hin|Hin]%elem_of_app.
      * destruct (matches_here_is_match _ _ _ _ _ _ Hm Hin)
          as (Hs & b & rest & ?).
        exists 0. split; [lia|]. by exists b, rest.
      * destruct (IH _ _ Hin) as (d & Hs & Hd).
        exists (S d). split; [lia|]. exact Hd.
    + intros Hin. destruct (IH _ _ Hin) as (d & Hs & Hd).
      exists (S d). split; [lia|]. exact Hd.
Qed.

Lemma finditer_is_match r text :
  Forall (is_match r text) (finditer r text).
Proof.
  apply Forall_forall. intros mo Hin.
  destruct (scan_is_match _ _ _ _ _ Hin) as (d & Hs & b & rest & Hm & Ht).
  simpl in Hs. subst d. by exists b, rest.
Qed.

(** After a match that consumed characters, the position has a match
    that starts there and is that long. *)
Lemma matches_here_last r pos s ms n :
  matches_here r pos s = (ms, n) → (0 < n)%nat →
  ∃ mo, mo ∈ ms ∧ m_start mo = pos ∧ String.length (m_text mo) = n.
Proof.
  intros Hm Hn.
  destruct (matches_here_cases _ _ _ _ _ Hm)
    as [[-> ->]|[(rest1 & c1 & _ & -> & ->)
                |(rest1 & c1 & rest2 & c2 & _ & _ & _ & -> & ->)]].
  - lia.
  - eexists. split; [left|]. done.
  - eexists. split; [right; left|]. done.
Qed.

(** Where the pattern matches, the position yields a match. *)
Lemma matches_here_first r pos s ms n :
  matches_here r pos s = (ms, n) → match_at r false s ≠ None →
  ∃ mo, mo ∈ ms ∧ m_start mo = pos.
Proof.
  intros Hm Hat.
  destruct (matches_here_cases _ _ _ _ _ Hm)
    as [[-> ->]|[(rest1 & c1 & _ & -> & ->)
                |(rest1 & c1 & rest2 & c2 & _ & _ & _ & -> & ->)]].
  - unfold matches_here in Hm. destruct (match_at r false s) as [[? ?]|]; [|done].
    by destruct (String.length _); [destruct (match_at r true s) as [[? ?]|]|].
  - eexists. split; [left|]. done.
  - eexists. split; [left|]. done.
Qed.

Lemma str_drop_S d c (s : string) : str_drop (S d) (String c s) = str_drop d s.
Proof. reflexivity. Qed.

(** The scan misses nothing: an offset at which the pattern matches is
    the start of a reported match, or lies inside one. *)
Lemma scan_complete r skip pos s d :
  (skip ≤ d ≤ String.length s)%nat →
  match_at r false (str_drop d s) ≠ None →
  ∃ mo, mo ∈ scan r skip pos s
        ∧ (m_start mo = pos + d ∨ (m_start mo < pos + d < m_end mo)%nat).
Proof.
  revert skip pos d. induction s as [|c s' IH]; intros skip pos d Hd Hat.
  - simpl in Hd. assert (d = 0) as -> by lia. assert (skip = 0) as -> by lia.
    simpl in *. destruct (matches_here r pos "") as [ms n] eqn:Hm. simpl.
    destruct (matches_here_first _ _ _ _ _ Hm Hat) as (mo & Hin & Hs).
    exists mo. split; [done|]. left. lia.
  - destruct skip as [|k]; simpl scan.
    + destruct (matches_here r pos (String c s')) as [ms n] eqn:Hm.
      destruct d as [|d'].
      * destruct (matches_here_first _ _ _ _ _ Hm Hat) as (mo & Hin & Hs).
        exists mo. split; [apply elem_of_app; by left|]. left. lia.
      * rewrite str_drop_S in Hat. simpl in Hd.
        destruct (Nat.le_gt_cases (pred n) d') as [Hle|Hgt].
        -- destruct (IH (pred n) (S pos) d') as (mo & Hin & Hs); [lia|done|].
           exists mo. split; [apply elem_of_app; by right|].
           destruct Hs as [Hs|Hs]; [left|right]; lia.
        -- destruct (matches_here_last _ _ _ _ _ Hm) as (mo & Hin & Hs & Hlen);
             [lia|].
           exists mo. split; [apply elem_of_app; by left|]. right.
           unfold m_end. lia.
    + destruct d as [|d']; [lia|]. rewrite str_drop_S in Hat. simpl in Hd.
      destruct (IH k (S pos) d') as (mo & Hin & Hs); [lia|done|].
      exists mo. split; [done|]. destruct Hs as [Hs|Hs]; [left|right]; lia.
Qed.

Lemma finditer_complete r text d :
  (d ≤ String.length text)%nat →
  match_at r false (str_drop d text) ≠ None →
  covered (finditer r text) d.
Proof.
  intros Hd Hat.
  destruct (scan_complete r 0 0 text d) as (mo & Hin & Hs); [lia|done|].
  exists mo. split; [done|]. simpl in Hs. done.
Qed.

(** With a pattern string, the call is [re.findall] followed by the
    loop that wraps each item. *)
Lemma from_text_findall w text unit_ language p :
  from_text w text unit_ (Some (TokPattern p)) language
  = (tokens ← re_findall w p text;
     Ok {| elements := plain_stim <$> tokens |}).
Proof.
  destruct (re_findall w p text) as [tokens|e] eqn:Hr; simpl.
  - by apply from_text_ok.
  - by apply from_text_raise.
Qed.

(** C8. With a pattern string as tokenizer, whatever the pattern, the
    text and the other arguments, [from_text] hands the pattern and the
    text to [re.findall] and returns a new collection holding one plain
    [TextStim] per item of its answer, in order, whose only attribute is
    the text of that item; it raises what [re.findall] raises. The unit
    and the language play no part. For a pattern that the matcher
    covers, the items are the matches of the pattern in the text, one
    per match (the whole match, or its groups): each is a match of the
    pattern at its offset, they lie one after the other without
    overlap, none is missed (every offset at which the pattern matches
    starts a reported match or lies inside one), and the result is the
    same in every world. *)
Theorem C8_one_plain_element_per_match w text unit_ language p :
  from_text w text unit_ (Some (TokPattern p)) language
  = (tokens ← re_findall w p text;
     Ok {| elements := plain_stim <$> tokens |})
  ∧ (∀ cts, from_text w text unit_ (Some (TokPattern p)) language = Ok cts →
       Forall (λ e, is_plain e ∧ dom (stim_dict e) = {["text"]}) (elements cts))
  ∧ (∀ unit' language',
       from_text w text unit' (Some (TokPattern p)) language'
       = from_text w text unit_ (Some (TokPattern p)) language)
  ∧ (∀ r, compile p = Some r →
       from_text w text unit_ (Some (TokPattern p)) language
       = Ok {| elements :=
                 (λ mo, plain_stim (findall_item (groups r) mo))
                 <$> finditer r text |}
       ∧ Forall (is_match r text) (finditer r text)
       ∧ non_overlapping 0 (finditer r text)
       ∧ (∀ d, (d ≤ String.length text)%nat →
               match_at r false (str_drop d text) ≠ None →
               covered (finditer r text) d)
       ∧ ∀ w', from_text w' text unit_ (Some (TokPattern p)) language
               = from_text w text unit_ (Some (TokPattern p)) language).
Proof.
  split; [apply from_text_findall|]. split; [|split].
  - intros cts. rewrite from_text_findall.
    destruct (re_findall w p text) as [tokens|e]; simpl; [|done].
    intros [= <-]. simpl. apply Forall_fmap, Forall_true. intros t. simpl.
    split; [apply plain_stim_is_plain|]. apply dom_singleton_L.
  - intros unit' language'. by rewrite !from_text_findall.
  - intros r Hc.
    assert (∀ w', from_text w' text unit_ (Some (TokPattern p)) language
                  = Ok {| elements :=
                            (λ mo, plain_stim (findall_item (groups r) mo))
                            <$> finditer r text |}) as Hall.
    { intros w'. rewrite (from_text_pattern _ _ _ _ _ _ Hc). unfold findall_re.
      by rewrite <- list_fmap_compose. }
    split; [apply Hall|].
    split; [apply finditer_is_match|].
    split; [apply (scan_non_overlapping r 0 0 text)|].
    split; [intros d; apply finditer_complete|].
    intros w'. by rewrite !Hall.
Qed.

(** The pattern [\w+] on the text [ab ca]: the two words, found at
    offsets 0 and 3. *)
Lemma C8_one_plain_element_per_match_witness :
  from_text (no_nltk ∅) "ab ca" "word" (Some (TokPattern "\w+")) "english"
  = Ok {| elements := [plain_stim (PyStr "ab"); plain_stim (PyStr "ca")] |}
  ∧ finditer (Repeat 1 None (Chars false word_ranges)) "ab ca"
    = [Match 0 "ab" []; Match 3 "ca" []]
  ∧ Forall (is_match (Repeat 1 None (Chars false word_ranges)) "ab ca")
      [Match 0 "ab" []; Match 3 "ca" []]
  ∧ non_overlapping 0 [Match 0 "ab" []; Match 3 "ca" []]
  ∧ (∀ d, (d ≤ String.length "ab ca")%nat →
          match_at (Repeat 1 None (Chars false word_ranges)) false
            (str_drop d "ab ca") ≠ None →
          covered [Match 0 "ab" []; Match 3 "ca" []] d)
  ∧ ∀ w', from_text w' "ab ca" "word" (Some (TokPattern "\w+")) "english"
          = from_text (no_nltk ∅) "ab ca" "word" (Some (TokPattern "\w+"))
              "english".
Proof.
  pose proof (proj2 (proj2 (proj2
    (C8_one_plain_element_per_match (no_nltk ∅) "ab ca" "word" "english" "\w+")))
    (Repeat 1 None (Chars false word_ranges)) eq_refl) as (H1 & H2 & H3 & H4 & H5).
  split; [exact H1|]. split; [reflexivity|].
  split; [exact H2|]. split; [exact H3|]. split; [exact H4|exact H5].
Defined.

(** ** The repetition loop is never cut short

    The count [n] of [rep_opt] starts at the length of the text left.
    Any larger count gives the same result: the bound is a measure, not a
    cut-off. *)

Section RepetitionBound.

Variable body : matcher.

Hypothesis body_ext : ∀ s c (k1 k2 : cont),
  (∀ s' c', k1 s' c' = k2 s' c') → body s c k1 = body s c k2.

Hypothesis body_fail : ∀ s c, body s c (λ _ _, None) = None.

Lemma rep_opt_ext n extra s c (k1 k2 : cont) :
  (∀ s' c', k1 s' c' = k2 s' c') →
  rep_opt body n extra s c k1 = rep_opt body n extra s c k2.
Proof.
  intros Hk. revert extra s c. induction n as [|n IH]; intros extra s c.
  - destruct extra as [[|e]|]; simpl; rewrite ?Hk; try done.
    + f_equal. apply body_ext. intros s' c'.
      by destruct (String.length s' <? String.length s)%nat.
    + f_equal. apply body_ext. intros s' c'.
      by destruct (String.length s' <? String.length s)%nat.
  - destruct extra as [[|e]|]; simpl; rewrite ?Hk; try done.
    + f_equal. apply body_ext. intros s' c'.
      destruct (String.length s' <? String.length s)%nat; [apply IH|done].
    + f_equal. apply body_ext. intros s' c'.
      destruct (String.length s' <? String.length s)%nat; [apply IH|done].
Qed.

Lemma rep_mand_ext lo extra s c (k1 k2 : cont) :
  (∀ s' c', k1 s' c' = k2 s' c') →
  rep_mand body lo extra s c k1 = rep_mand body lo extra s c k2.
Proof.
  intros Hk. revert s c. induction lo as [|lo IH]; intros s c; simpl.
  - by apply rep_opt_ext.
  - apply body_ext. intros s' c'. apply IH.
Qed.

Lemma rep_opt_fail n extra s c :
  rep_opt body n extra s c (λ _ _, None) = None.
Proof.
  revert extra s c. induction n as [|n IH]; intros extra s c.
  - assert (body s c (λ s1 c1,
              if (String.length s1 <? String.length s)%nat
              then None else None) = None) as Hagain.
    { transitivity (body s c (λ _ _, None)); [|apply body_fail].
      apply body_ext. intros s' c'.
      by destruct (String.length s' <? String.length s)%nat. }
    destruct extra as [[|e]|]; simpl; by rewrite ?Hagain.
  - assert (∀ e', body s c (λ s1 c1,
              if (String.length s1 <? String.length s)%nat
              then rep_opt body n e' s1 c1 (λ _ _, None) else None) = None)
      as Hagain.
    { intros e'. transitivity (body s c (λ _ _, None)); [|apply body_fail].
      apply body_ext. intros s' c'.
      destruct (String.length s' <? String.length s)%nat; [apply IH|done]. }
    destruct extra as [[|e]|]; simpl; by rewrite ?Hagain.
Qed.

Lemma rep_mand_fail lo extra s c :
  rep_mand body lo extra s c (λ _ _, None) = None.
Proof.
  revert s c. induction lo as [|lo IH]; intros s c; simpl.
  - apply rep_opt_fail.
  - transitivity (body s c (λ _ _, None)); [|apply body_fail].
    apply body_ext. intros s' c'. apply IH.
Qed.

(** One more unit of count changes nothing once the count covers the
    text. *)
Lemma rep_opt_succ n extra s c k :
  (String.length s ≤ n)%nat →
  rep_opt body (S n) extra s c k = rep_opt body n extra s c k.
Proof.
  revert extra s c. induction n as [|n IH]; intros extra s c Hlen.
  - assert (∀ e', body s c (λ s1 c1,
              if (String.length s1 <? String.length s)%nat
              then rep_opt body 0 e' s1 c1 k else k s1 c1)
            = body s c (λ s1 c1,
              if (String.length s1 <? String.length s)%nat
              then None else k s1 c1)) as Hagain.
    { intros e'. apply body_ext. intros s' c'.
      destruct (Nat.ltb_spec (String.length s') (String.length s)); [lia|done]. }
    destruct extra as [[|e]|]; [done| |].
    + change (or_else (body s c (λ s1 c1,
                if (String.length s1 <? String.length s)%nat
                then rep_opt body 0 (Some e) s1 c1 k else k s1 c1)) (k s c)
              = rep_opt body 0 (Some (S e)) s c k).
      by rewrite Hagain.
    + change (or_else (body s c (λ s1 c1,
                if (String.length s1 <? String.length s)%nat
                then rep_opt body 0 None s1 c1 k else k s1 c1)) (k s c)
              = rep_opt body 0 None s c k).
      by rewrite Hagain.
  - assert (∀ e', body s c (λ s1 c1,
              if (String.length s1 <? String.length s)%nat
              then rep_opt body (S n) e' s1 c1 k else k s1 c1)
            = body s c (λ s1 c1,
              if (String.length s1 <? String.length s)%nat
              then rep_opt body n e' s1 c1 k else k s1 c1)) as Hagain.
    { intros e'. apply body_ext. intros s' c'.
      destruct (Nat.ltb_spec (String.length s') (String.length s));
        [apply IH; lia|done]. }
    destruct extra as [[|e]|]; [done| |].
    + change (or_else (body s c (λ s1 c1,
                if (String.length s1 <? String.length s)%nat
                then rep_opt body (S n) (Some e) s1 c1 k else k s1 c1)) (k s c)
              = rep_opt body (S n) (Some (S e)) s c k).
      by rewrite Hagain.
    + change (or_else (body s c (λ s1 c1,
                if (String.length s1 <? String.length s)%nat
                then rep_opt body (S n) None s1 c1 k else k s1 c1)) (k s c)
              = rep_opt body (S n) None s c k).
      by rewrite Hagain.
Qed.

Lemma rep_opt_enough n extra s c k :
  (String.length s ≤ n)%nat →
  rep_opt body n extra s c k = rep_opt body (String.length s) extra s c k.
Proof.
  intros Hlen. replace n with ((n - String.length s) + String.length s) by lia.
  induction (n - String.length s) as [|d IH]; [done|].
  simpl Nat.add. rewrite rep_opt_succ; [exact IH|lia].
Qed.

End RepetitionBound.

(** The matcher treats its continuation as a function, and fails when the
    continuation always fails. *)
Lemma m_ext r s c (k1 k2 : cont) :
  (∀ s' c', k1 s' c' = k2 s' c') → m r s c k1 = m r s c k2.
Proof.
  revert s c k1 k2.
  induction r as [|neg rs|r1 IH1 r2 IH2|r1 IH1 r2 IH2|lo extra r IH|pos r IH|i r IH];
    intros s c k1 k2 Hk; simpl.
  - apply Hk.
  - destruct s as [|ch s']; [done|]. destruct (char_matches neg rs ch); [apply Hk|done].
  - apply IH1. intros s' c'. by apply IH2.
  - by rewrite (IH1 _ _ k1 k2 Hk), (IH2 _ _ k1 k2 Hk).
  - apply rep_mand_ext; [|done]. intros. by apply IH.
  - destruct (m r s c _) as [[? c1]|]; destruct pos; try done; apply Hk.
  - apply IH. intros s' c'. apply Hk.
Qed.

Lemma m_fail r s c : m r s c (λ _ _, None) = None.
Proof.
  revert s c.
  induction r as [|neg rs|r1 IH1 r2 IH2|r1 IH1 r2 IH2|lo extra r IH|pos r IH|i r IH];
    intros s c; simpl.
  - done.
  - destruct s as [|ch s']; [done|]. by destruct (char_matches neg rs ch).
  - transitivity (m r1 s c (λ _ _, None)); [|apply IH1].
    apply m_ext. intros s' c'. apply IH2.
  - by rewrite IH1, IH2.
  - apply rep_mand_fail; [|done]. intros. by apply m_ext.
  - by destruct (m r s c _) as [[? c1]|]; destruct pos.
  - apply IH.
Qed.

(** For the matcher's own loops: any count that covers the text left
    gives what the count the matcher uses gives. *)
Lemma repeat_count_enough r n extra s c k :
  (String.length s ≤ n)%nat →
  rep_opt (m r) n extra s c k = rep_opt (m r) (String.length s) extra s c k.
Proof.
  apply rep_opt_enough. intros. by apply m_ext.
Qed.

(** ** A file with text and onset columns is always read

    The constructor returns whenever the file is there, parses, and has
    columns [text] and [onset]: the rows then all yield timed elements. *)

Lemma parse_record_length ncols line cells :
  parse_record ncols line = Ok cells → List.length cells = ncols.
Proof. by intros [? _]%parse_record_cells. Qed.

Lemma read_csv_cells_length content names df i cells :
  read_csv content names = Ok df → df_data df !! i = Some cells →
  List.length cells = List.length (df_columns df).
Proof.
  intros Hdf Hi.
  destruct (read_csv_row _ _ _ _ _ Hdf Hi)
    as (line & fields & leading & _ & Hp & -> & _).
  apply parse_record_cells in Hp as [Hlen _]. rewrite length_drop. lia.
Qed.

Lemma read_csv_row_lengths content names df :
  read_csv content names = Ok df →
  Forall (λ cells, List.length cells = List.length (df_columns df)) (df_data df).
Proof.
  intros Hdf. apply Forall_lookup. intros i cells Hi.
  by eapply read_csv_cells_length.
Qed.

(** A label of the columns is found in every full row. *)
Lemma series_find_zip (cols : list string) (cells : list pyval) label :
  label ∈ cols → List.length cells = List.length cols →
  is_Some (series_find (zip cols cells) label).
Proof.
  unfold series_find. revert cells.
  induction cols as [|c cols IH]; intros cells Hin Hlen;
    [by apply elem_of_nil in Hin|].
  destruct cells as [|v cells]; [done|]. simpl.
  destruct (String.eqb_spec c label) as [->|Hne]; [by eexists|].
  apply elem_of_cons in Hin as [->|Hin]; [done|].
  apply IH; [done|]. simpl in Hlen. lia.
Qed.

Lemma row_element_timed_ok w dd i (cols : list string) (cells : list pyval) :
  "text" ∈ cols → "onset" ∈ cols →
  List.length cells = List.length cols →
  ∃ e, row_element w dd i (zip cols cells) = Ok e.
Proof.
  intros Ht Ho Hlen.
  destruct (series_find_zip _ _ _ Ht Hlen) as [text Htext].
  destruct (series_find_zip _ _ _ Ho Hlen) as [onset Honset].
  eexists. apply (row_element_timed _ _ _ _ text onset).
  - unfold series_contains. rewrite Honset. by apply bool_decide_eq_true.
  - unfold series_getitem. by rewrite Htext.
  - unfold series_getitem. by rewrite Honset.
Qed.

Lemma Forall_exists_Forall2 {A B} (P : A → B → Prop) (l : list A) :
  Forall (λ x, ∃ y, P x y) l → ∃ k, Forall2 P l k.
Proof.
  induction 1 as [|x l [y Hy] _ [k Hk]].
  - exists []. constructor.
  - exists (y :: k). by constructor.
Qed.

Lemma from_file_timed_returns w filename columns dd content names df :
  files w !! filename = Some content →
  col_names (first_row content) columns = Ok names →
  read_csv content names = Ok df →
  "text" ∈ df_columns df → "onset" ∈ df_columns df →
  ∃ cts, ComplexTextStim_init w (Some filename) columns dd = Ok cts.
Proof.
  intros Hf Hn Hdf Ht Ho. rewrite (from_file_eq _ _ _ _ _ _ _ Hf Hn Hdf).
  assert (∃ new, Forall2 (λ ir e, row_element w dd ir.1 ir.2 = Ok e)
                   (iterrows df) new) as [new Hnew].
  { apply Forall_exists_Forall2, Forall_lookup. intros j ir Hj.
    apply iterrows_lookup_inv in Hj as (label & cells & Hl & Hc & ->). simpl.
    apply row_element_timed_ok; [done..|].
    by eapply read_csv_cells_length. }
  rewrite (from_file_loop_ok _ _ _ _ _ Hnew). simpl. by eexists.
Qed.

(** ** What the matcher consumes

    The text of a match is a piece of the input: the matcher consumes a
    prefix of what it is given and nothing else, and a check on the
    pattern bounds the characters that prefix is made of. *)

Lemma str_app_cons x (a b : string) : String x a +:+ b = String x (a +:+ b).
Proof. reflexivity. Qed.

Lemma str_app_assoc (a b c : string) : (a +:+ b) +:+ c = a +:+ (b +:+ c).
Proof.
  induction a as [|x a IH]; [done|]. rewrite !str_app_cons. by rewrite IH.
Qed.

Lemma str_app_length (a b : string) :
  String.length (a +:+ b) = String.length a + String.length b.
Proof.
  induction a as [|x a IH]; [done|]. rewrite str_app_cons. simpl.
  by rewrite IH.
Qed.

Lemma str_forall_app P (a b : string) :
  str_forall P (a +:+ b) = str_forall P a && str_forall P b.
Proof.
  induction a as [|x a IH]; [done|]. rewrite str_app_cons. simpl.
  rewrite IH. by rewrite andb_assoc.
Qed.

Lemma str_app_empty (a b : string) : a +:+ b = "" → a = "".
Proof. by destruct a. Qed.

Lemma class_within_char P neg rs c :
  class_within P neg rs = true → char_matches neg rs c = true → P c = true.
Proof.
  unfold class_within. rewrite forallb_forall. intros Hall Hc.
  specialize (Hall (nat_of_ascii c)).
  rewrite ascii_nat_embedding, Hc in Hall. apply Hall.
  apply in_seq. pose proof (nat_ascii_bounded c). lia.
Qed.

Section SoundLoops.

Variables (P : ascii → bool) (ne : bool) (body : matcher).

Hypothesis body_sound : sound P ne body.

Lemma rep_opt_sound n extra : sound P false (λ s c k, rep_opt body n extra s c k).
Proof.
  revert extra. induction n as [|n IH]; intros extra s caps k res.
  - destruct extra as [[|e]|]; simpl.
    + intros Hk. by exists "", s, caps.
    + destruct (body s caps _) as [x|] eqn:Hb; simpl.
      * intros [= ->]. apply body_sound in Hb as (t & s1 & c1 & -> & Ht & _ & Hk).
        destruct (String.length s1 <? String.length (t +:+ s1))%nat; [done|].
        by exists t, s1, c1.
      * intros Hk. by exists "", s, caps.
    + destruct (body s caps _) as [x|] eqn:Hb; simpl.
      * intros [= ->]. apply body_sound in Hb as (t & s1 & c1 & -> & Ht & _ & Hk).
        destruct (String.length s1 <? String.length (t +:+ s1))%nat; [done|].
        by exists t, s1, c1.
      * intros Hk. by exists "", s, caps.
  - assert (∀ e' x,
      body s caps (λ s1 c1,
        if (String.length s1 <? String.length s)%nat
        then rep_opt body n e' s1 c1 k else k s1 c1) = Some x →
      ∃ t s1 c1, s = t +:+ s1 ∧ str_forall P t = true
                 ∧ (false = true → t ≠ "") ∧ k s1 c1 = Some x) as Hagain.
    { intros e' x Hb.
      apply body_sound in Hb as (t & s1 & c1 & -> & Ht & _ & Hk).
      destruct (String.length s1 <? String.length (t +:+ s1))%nat.
      - apply IH in Hk as (t2 & s2 & c2 & -> & Ht2 & _ & Hk2).
        exists (t +:+ t2), s2, c2. rewrite str_app_assoc, str_forall_app, Ht, Ht2.
        done.
      - by exists t, s1, c1. }
    destruct extra as [[|e]|]; simpl.
    + intros Hk. by exists "", s, caps.
    + destruct (body s caps _) as [x|] eqn:Hb; simpl.
      * intros [= ->]. by apply (Hagain (Some e)).
      * intros Hk. by exists "", s, caps.
    + destruct (body s caps _) as [x|] eqn:Hb; simpl.
      * intros [= ->]. by apply (Hagain None).
      * intros Hk. by exists "", s, caps.
Qed.

Lemma rep_mand_sound lo extra :
  sound P ((0 <? lo)%nat && ne) (λ s c k, rep_mand body lo extra s c k).
Proof.
  induction lo as [|lo IH]; intros s caps k res; simpl.
  - intros Hr. by apply (rep_opt_sound _ extra) in Hr.
  - intros Hb. apply body_sound in Hb as (t & s1 & c1 & -> & Ht & Hne & Hk).
    apply IH in Hk as (t2 & s2 & c2 & -> & Ht2 & _ & Hk2).
    exists (t +:+ t2), s2, c2. rewrite str_app_assoc, str_forall_app, Ht, Ht2.
    repeat split; [|done]. intros Hn Hemp. apply str_app_empty in Hemp.
    by apply Hne.
Qed.

End SoundLoops.

(** The matcher is sound for every pattern that passes the check. *)
Lemma m_sound P r :
  consumes_only P r = true → sound P (never_empty r) (m r).
Proof.
  induction r as [|neg rs|r1 IH1 r2 IH2|r1 IH1 r2 IH2|lo extra r IH|pos r IH|i r IH];
    simpl; intros Hc s caps k res.
  - intros Hk. by exists "", s, caps.
  - destruct s as [|ch s']; [done|].
    destruct (char_matches neg rs ch) eqn:Hm; [|done]. intros Hk.
    exists (String ch ""), s', caps. simpl.
    by rewrite (class_within_char _ _ _ _ Hc Hm).
  - apply andb_true_iff in Hc as [Hc1 Hc2]. intros Hm.
    apply (IH1 Hc1) in Hm as (t1 & s1 & c1 & -> & Ht1 & Hn1 & Hm).
    apply (IH2 Hc2) in Hm as (t2 & s2 & c2 & -> & Ht2 & Hn2 & Hk).
    exists (t1 +:+ t2), s2, c2. rewrite str_app_assoc, str_forall_app, Ht1, Ht2.
    repeat split; [|done]. intros [Hn|Hn]%orb_true_iff Hemp.
    + apply str_app_empty in Hemp. by apply Hn1.
    + destruct t1; [|done]. simpl in Hemp. by apply Hn2.
  - apply andb_true_iff in Hc as [Hc1 Hc2].
    destruct (m r1 s caps k) as [x|] eqn:H1; simpl.
    + intros [= ->]. apply (IH1 Hc1) in H1 as (t & s1 & c1 & ? & ? & Hn & ?).
      exists t, s1, c1. repeat split; try done.
      intros [? _]%andb_true_iff. by apply Hn.
    + intros H2. apply (IH2 Hc2) in H2 as (t & s1 & c1 & ? & ? & Hn & ?).
      exists t, s1, c1. repeat split; try done.
      intros [_ ?]%andb_true_iff. by apply Hn.
  - intros Hr. by apply (rep_mand_sound P (never_empty r) (m r) (IH Hc)) in Hr.
  - destruct (m r s caps _) as [[? c1]|]; destruct pos; try done; intros Hk.
    + by exists "", s, c1.
    + by exists "", s, caps.
  - intros Hm. apply (IH Hc) in Hm as (t & s1 & c1 & ? & ? & ? & ?).
    by exists t, s1, ((i, consumed s s1) :: c1).
Qed.

Lemma consumed_prefix (t rest : string) : consumed (t +:+ rest) rest = t.
Proof.
  unfold consumed, str_take. rewrite str_app_length.
  replace (String.length t + String.length rest - String.length rest)
    with (String.length t) by lia.
  induction t as [|c t IH].
  - by destruct rest.
  - rewrite str_app_cons. simpl. by rewrite IH.
Qed.

(** One attempt: the text matched is a prefix of the text attempted. *)
Lemma match_at_sound P r must_advance s rest caps :
  consumes_only P r = true →
  match_at r must_advance s = Some (rest, caps) →
  s = consumed s rest +:+ rest
  ∧ str_forall P (consumed s rest) = true
  ∧ (never_empty r = true → consumed s rest ≠ "").
Proof.
  intros Hc Hm. unfold match_at in Hm.
  apply (m_sound P r Hc) in Hm as (t & s1 & c1 & -> & Ht & Hn & Hk).
  destruct (must_advance && _); [done|]. injection Hk as <- <-.
  by rewrite consumed_prefix.
Qed.

Lemma str_drop_length d (s : string) :
  String.length (str_drop d s) = String.length s - d.
Proof.
  revert s. induction d as [|d IH]; intros s; simpl.
  - by destruct s; simpl; lia.
  - destruct s as [|c s]; simpl; [done|]. apply IH.
Qed.

Lemma str_drop_substring d (s t rest : string) :
  str_drop d s = t +:+ rest → String.substring d (String.length t) s = t.
Proof.
  revert s. induction d as [|d IH]; intros s.
  - replace (str_drop 0 s) with s by (by destruct s). intros ->.
    clear. induction t as [|c t IH]; [by destruct rest|].
    rewrite str_app_cons. simpl. by rewrite IH.
  - destruct s as [|c s]; simpl.
    + intros Hemp. symmetry in Hemp. apply str_app_empty in Hemp as ->. done.
    + apply IH.
Qed.

Lemma str_forall_drop P d (s : string) :
  str_forall P s = true → str_forall P (str_drop d s) = true.
Proof.
  revert s. induction d as [|d IH]; intros s; [by destruct s|].
  destruct s as [|c s]; simpl; [done|]. intros [_ ?]%andb_true_iff. by apply IH.
Qed.

(** A scan reports matches that start inside the text it was given. *)
Lemma scan_start_bound r skip pos s mo :
  mo ∈ scan r skip pos s → (m_start mo ≤ pos + String.length s)%nat.
Proof.
  revert skip pos. induction s as [|c s' IH]; intros skip pos.
  - destruct skip as [|k]; simpl; [|by intros ?%elem_of_nil].
    destruct (matches_here r pos "") as [ms n] eqn:Hm. simpl. intros Hin.
    destruct (matches_here_is_match _ _ _ _ _ _ Hm Hin) as [-> _]. lia.
  - destruct skip as [|k]; simpl.
    + destruct (matches_here r pos (String c s')) as [ms n] eqn:Hm.
      intros [Hin|Hin]%elem_of_app.
      * destruct (matches_here_is_match _ _ _ _ _ _ Hm Hin) as [-> _]. lia.
      * apply IH in Hin. lia.
    + intros Hin. apply IH in Hin. lia.
Qed.

(** Every match of [finditer] is a slice of the text: it lies within the
    text, its text is what the text holds there, made of characters the
    pattern may consume, and not empty when the pattern cannot match the
    empty string. *)
Lemma finditer_slice P r text mo :
  consumes_only P r = true →
  mo ∈ finditer r text →
  (m_end mo ≤ String.length text)%nat
  ∧ m_text mo
    = String.substring (m_start mo) (String.length (m_text mo)) text
  ∧ str_forall P (m_text mo) = true
  ∧ (never_empty r = true → m_text mo ≠ "")
  ∧ ∃ rest, str_drop (m_start mo) text = m_text mo +:+ rest.
Proof.
  intros Hc Hin. pose proof (scan_start_bound _ _ _ _ _ Hin) as Hb.
  destruct (scan_is_match _ _ _ _ _ Hin) as (d & Hs & b & rest & Hm & Ht).
  simpl in Hs, Hb. subst d.
  destruct (match_at_sound P _ _ _ _ _ Hc Hm) as (Heq & HP & Hne).
  rewrite <- Ht in Heq, HP, Hne.
  pose proof (str_drop_length (m_start mo) text) as Hlen.
  rewrite Heq, str_app_length in Hlen.
  split; [unfold m_end; lia|].
  split; [symmetry; by eapply str_drop_substring|].
  split; [done|]. split; [done|]. by exists rest.
Qed.

(** The matches of a scan fit side by side into the text. *)
Lemma non_overlapping_total from (ms : list match_obj) L :
  non_overlapping from ms →
  Forall (λ mo, (m_end mo ≤ L)%nat) ms →
  (from ≤ L)%nat →
  (from + sum_list ((λ mo, String.length (m_text mo)) <$> ms) ≤ L)%nat.
Proof.
  revert from. induction ms as [|mo ms IH]; intros from; [simpl; lia|].
  intros [Hfrom Hrest] [Hend Hall]%Forall_cons Hle.
  specialize (IH _ Hrest Hall Hend). rewrite fmap_cons.
  change (from + (String.length (m_text mo)
                  + sum_list ((λ mo, String.length (m_text mo)) <$> ms)) ≤ L)%nat.
  unfold m_end in *. lia.
Qed.

Lemma patt_checks :
  ∃ r, compile patt = Some r
       ∧ groups r = 0
       ∧ consumes_only is_token_char r = true
       ∧ never_empty r = true.
Proof. eexists. repeat split; vm_compute; reflexivity. Qed.

(** ** Segmentation: the built-in pattern *)

(** What the built-in pattern yields on any text. *)
Lemma fallback_findall w text :
  ∃ r, compile patt = Some r
       ∧ re_findall w patt text = Ok ((λ mo, PyStr (m_text mo)) <$> finditer r text)
       ∧ Forall (λ mo, m_text mo ≠ ""
                       ∧ str_forall is_token_char (m_text mo) = true
                       ∧ ∃ rest, str_drop (m_start mo) text = m_text mo +:+ rest)
           (finditer r text)
       ∧ (sum_list ((λ mo, String.length (m_text mo)) <$> finditer r text)
          ≤ String.length text)%nat.
Proof.
  destruct patt_checks as (r & Hc & Hg & Hco & Hne). exists r.
  split; [done|]. split.
  { unfold re_findall, findall_re. by rewrite Hc, Hg. }
  split.
  { apply Forall_forall. intros mo Hin.
    destruct (finditer_slice _ _ _ _ Hco Hin) as (_ & _ & HP & Hn & Hrest).
    split; [by apply Hn|]. done. }
  apply (non_overlapping_total 0 _ _ (scan_non_overlapping r 0 0 text));
    [|lia].
  apply Forall_forall. intros mo Hin.
  by destruct (finditer_slice _ _ _ _ Hco Hin) as (? & _).
Qed.

(** When [from_text] falls back on the built-in pattern (no tokenizer,
    unit ['word'], [nltk] missing or failing), every element holds a
    non-empty word made only of word characters (the letters, digits and
    the underscore that [\w] accepts, accented letters among them),
    hyphens and apostrophes, and the words together are no longer than
    the text. *)
Theorem fallback_tokens_are_words w text language :
  (nltk w = None ∨ ∃ e, nltk_tokens w text "word" language = Raise e) →
  ∃ words : list string,
    from_text w text "word" None language
    = Ok {| elements := (λ s, plain_stim (PyStr s)) <$> words |}
    ∧ Forall (λ s, s ≠ "" ∧ str_forall is_token_char s = true) words
    ∧ (sum_list (String.length <$> words) ≤ String.length text)%nat.
Proof.
  intros Hun.
  assert (∃ e, nltk_tokens w text "word" language = Raise e) as [e He].
  { destruct Hun as [Hn|He]; [|done].
    eexists. by apply nltk_tokens_without_nltk. }
  destruct (fallback_findall w text) as (r & Hc & Hf & Hall & Hsum).
  exists (m_text <$> finditer r text). split.
  { rewrite (from_text_ok w _ _ _ _ ((λ mo, PyStr (m_text mo)) <$> finditer r text)).
    - by rewrite <- !list_fmap_compose.
    - by rewrite (tokens_of_handler _ _ _ _ _ He). }
  split.
  - apply Forall_fmap. eapply Forall_impl; [exact Hall|].
    by intros mo (? & ? & _).
  - by rewrite <- list_fmap_compose.
Qed.

(** Accented letters are word characters: [na\xefve caf\xe9] gives the two
    words. *)
Lemma fallback_accented_words :
  from_text (no_nltk ∅)
    ("na" +:+ String (ascii_of_nat 239) "ve caf" +:+ String (ascii_of_nat 233) "")
    "word" None "english"
  = Ok {| elements :=
            [plain_stim (PyStr ("na" +:+ String (ascii_of_nat 239) "ve"));
             plain_stim (PyStr ("caf" +:+ String (ascii_of_nat 233) ""))] |}.
Proof. vm_compute. reflexivity. Qed.

Lemma fallback_tokens_are_words_witness :
  ∃ words : list string,
    from_text (no_nltk ∅) "Hi, you!" "word" None "english"
    = Ok {| elements := (λ s, plain_stim (PyStr s)) <$> words |}
    ∧ Forall (λ s, s ≠ "" ∧ str_forall is_token_char s = true) words
    ∧ (sum_list (String.length <$> words) ≤ String.length "Hi, you!")%nat.
Proof.
  apply (fallback_tokens_are_words (no_nltk ∅) "Hi, you!" "english").
  left. reflexivity.
Defined.

(** When [from_text] falls back on the built-in pattern and the text has
    no word character, hyphen or apostrophe (an empty text, or one of
    blanks and punctuation only), the collection is empty. *)
Theorem fallback_without_word_characters w text language :
  (nltk w = None ∨ ∃ e, nltk_tokens w text "word" language = Raise e) →
  str_forall (λ c, negb (is_token_char c)) text = true →
  from_text w text "word" None language = Ok {| elements := [] |}.
Proof.
  intros Hun Hnone.
  assert (∃ e, nltk_tokens w text "word" language = Raise e) as [e He].
  { destruct Hun as [Hn|He]; [|done].
    eexists. by apply nltk_tokens_without_nltk. }
  destruct (fallback_findall w text) as (r & Hc & Hf & Hall & _).
  rewrite (from_text_ok w _ _ _ _ ((λ mo, PyStr (m_text mo)) <$> finditer r text));
    [|by rewrite (tokens_of_handler _ _ _ _ _ He)].
  destruct (finditer r text) as [|mo ms]; [done|]. exfalso.
  apply Forall_cons in Hall as [(Hne & HP & rest & Hd) _].
  pose proof (str_forall_drop _ (m_start mo) _ Hnone) as Hn.
  rewrite Hd, str_forall_app in Hn. apply andb_true_iff in Hn as [Hn _].
  destruct (m_text mo) as [|c t]; [done|]. simpl in HP, Hn.
  apply andb_true_iff in HP as [HP _]. apply andb_true_iff in Hn as [Hn _].
  by rewrite HP in Hn.
Qed.

Lemma fallback_without_word_characters_witness :
  from_text (no_nltk ∅) " ... ?!" "word" None "english" = Ok {| elements := [] |}.
Proof.
  apply (fallback_without_word_characters (no_nltk ∅) " ... ?!" "english").
  - left. reflexivity.
  - reflexivity.
Defined.

(** ** File ingestion: what the rows become *)

Lemma from_file_loop_ext w dd dd' rows elems :
  Forall (λ ir, row_element w dd ir.1 ir.2 = row_element w dd' ir.1 ir.2) rows →
  from_file_loop w dd rows elems = from_file_loop w dd' rows elems.
Proof.
  intros Hall. revert elems.
  induction Hall as [|[i r] rest Hr _ IH]; intros elems; simpl; [done|].
  simpl in Hr. rewrite Hr. destruct (row_element w dd' i r); simpl; [|done].
  apply IH.
Qed.

(** The loop stops at the first row that raises. *)
Lemma from_file_loop_raise w dd rows elems ir x :
  rows !! 0 = Some ir → row_element w dd ir.1 ir.2 = Raise x →
  from_file_loop w dd rows elems = Raise x.
Proof.
  destruct rows as [|[i r] rest]; [done|]. intros [= <-] Hr. simpl in *.
  by rewrite Hr.
Qed.

Lemma series_find_absent (cols : list string) (cells : list pyval) label :
  label ∉ cols → series_find (zip cols cells) label = None.
Proof.
  unfold series_find. revert cells.
  induction cols as [|c cols IH]; intros cells Hn; [done|].
  destruct cells as [|v cells]; [done|]. simpl.
  apply not_elem_of_cons in Hn as [Hne Hn].
  destruct (String.eqb_spec c label) as [->|_]; [done|]. by apply IH.
Qed.

Lemma series_find_cell (cols : list string) (cells : list pyval) label v :
  series_find (zip cols cells) label = Some v → v ∈ cells.
Proof.
  unfold series_find. revert cells.
  induction cols as [|c cols IH]; intros cells; [done|].
  destruct cells as [|v' cells]; [done|]. simpl.
  destruct (String.eqb c label).
  - intros [= <-]. left.
  - intros ?%IH. by right.
Qed.

(** The reader never hands [None] over: a cell is [nan] or text. *)
Lemma parse_record_no_None width line cells :
  parse_record width line = Ok cells → Forall (λ v, is_None v = false) cells.
Proof.
  unfold parse_record.
  destruct (List.length (Str.split Str.TAB line) <=? width)%nat; [|done].
  intros [= <-]. unfold pad. apply Forall_app. split.
  - apply Forall_fmap, Forall_true. intros f. unfold cell_of_field. simpl.
    by destruct (bool_decide _).
  - by apply Forall_replicate.
Qed.

Lemma read_csv_no_None content names df i cells :
  read_csv content names = Ok df → df_data df !! i = Some cells →
  Forall (λ v, is_None v = false) cells.
Proof.
  intros Hdf Hi.
  destruct (read_csv_row _ _ _ _ _ Hdf Hi)
    as (line & fields & leading & _ & Hp & -> & _).
  apply Forall_drop. by eapply parse_record_no_None.
Qed.

Lemma timed_rows_dynamic w filename columns dd cts content names df :
  files w !! filename = Some content →
  col_names (first_row content) columns = Ok names →
  read_csv content names = Ok df →
  "onset" ∈ df_columns df →
  ComplexTextStim_init w (Some filename) columns dd = Ok cts →
  ∀ i e, elements cts !! i = Some e →
    ∃ label cells text onset duration,
      df_index df !! i = Some label
      ∧ df_data df !! i = Some cells
      ∧ series_find (zip (df_columns df) cells) "text" = Some text
      ∧ series_find (zip (df_columns df) cells) "onset" = Some onset
      ∧ e = dynamic_stim text label onset duration.
Proof.
  intros Hf Hn Hdf Hon Hcts i e Hi.
  apply from_file_inv in Hcts as (content' & names' & df' & Hf' & Hn' & Hdf' & Hall).
  rewrite Hf in Hf'. injection Hf' as <-.
  rewrite Hn in Hn'. injection Hn' as <-.
  rewrite Hdf in Hdf'. injection Hdf' as <-.
  destruct (Forall2_lookup_r _ _ _ _ _ Hall Hi) as (ir & Hr & He).
  apply iterrows_lookup_inv in Hr as (label & cells & Hl & Hc & ->).
  simpl in He.
  pose proof (read_csv_cells_length _ _ _ _ _ Hdf Hc) as Hlen.
  destruct (series_find_zip _ _ _ Hon Hlen) as [onset Honset].
  assert (series_contains (zip (df_columns df) cells) "onset" = true) as Hsc.
  { unfold series_contains. rewrite Honset. by apply bool_decide_eq_true. }
  unfold row_element in He. rewrite Hsc in He. simpl in He.
  unfold series_getitem in He. rewrite Honset in He.
  destruct (series_find (zip (df_columns df) cells) "text") as [text|] eqn:Ht;
    simpl in He; [|done].
  rewrite DynamicTextStim_eq in He. injection He as <-.
  by eexists label, cells, text, onset, _.
Qed.

(** The collection has as many elements as the table has rows. *)
Lemma from_file_length w filename columns dd cts content names df :
  files w !! filename = Some content →
  col_names (first_row content) columns = Ok names →
  read_csv content names = Ok df →
  ComplexTextStim_init w (Some filename) columns dd = Ok cts →
  List.length (elements cts) = List.length (df_data df).
Proof.
  intros Hf Hn Hdf Hcts.
  apply from_file_inv in Hcts as (content' & names' & df' & Hf' & Hn' & Hdf' & Hall).
  rewrite Hf in Hf'. injection Hf' as <-.
  rewrite Hn in Hn'. injection Hn' as <-.
  rewrite Hdf in Hdf'. injection Hdf' as <-.
  by rewrite <- (Forall2_length _ _ _ Hall), (iterrows_length _ _ _ Hdf).
Qed.

(** On a table with an onset column, the constructor returns one element
    per row, all of class [DynamicTextStim]; the one at position [i]
    carries the text and the onset of row [i], and the label of that row
    as its order, which is [i] when no record has more fields than there
    are column names. *)
Theorem timed_file_elements w filename columns dd cts content names df :
  files w !! filename = Some content →
  col_names (first_row content) columns = Ok names →
  read_csv content names = Ok df →
  "onset" ∈ df_columns df →
  ComplexTextStim_init w (Some filename) columns dd = Ok cts →
  List.length (elements cts) = List.length (df_data df)
  ∧ ∀ i e, elements cts !! i = Some e →
      ∃ label cells text onset duration,
        df_index df !! i = Some label
        ∧ df_data df !! i = Some cells
        ∧ series_find (zip (df_columns df) cells) "text" = Some text
        ∧ series_find (zip (df_columns df) cells) "onset" = Some onset
        ∧ e = dynamic_stim text label onset duration
        ∧ (no_extra_fields content names → label = PyInt i).
Proof.
  intros Hf Hn Hdf Hon Hcts.
  split; [by eapply from_file_length|]. intros i e Hi.
  destruct (timed_rows_dynamic _ _ _ _ _ _ _ _ Hf Hn Hdf Hon Hcts i e Hi)
    as (label & cells & text & onset & duration & Hl & Hc & Ht & Ho & He).
  exists label, cells, text, onset, duration. do 5 (split; [done|]).
  intros Hfit. destruct (read_csv_row_fits _ _ _ _ _ Hdf Hfit Hc) as [Hl' _].
  congruence.
Qed.

Lemma timed_file_elements_witness :
  List.length
    [dynamic_stim (PyStr "hello") (PyStr "x") (PyStr "0.5") PyNone;
     dynamic_stim (PyStr "world") (PyStr "y") (PyStr "1.0") PyNone]
  = List.length [[PyStr "0.5"; PyStr "hello"]; [PyStr "1.0"; PyStr "world"]]
  ∧ ∃ label cells text onset duration,
      [PyStr "x"; PyStr "y"] !! 1 = Some label
      ∧ [[PyStr "0.5"; PyStr "hello"]; [PyStr "1.0"; PyStr "world"]] !! 1
        = Some cells
      ∧ series_find (zip ["onset"; "text"] cells) "text" = Some text
      ∧ series_find (zip ["onset"; "text"] cells) "onset" = Some onset
      ∧ dynamic_stim (PyStr "world") (PyStr "y") (PyStr "1.0") PyNone
        = dynamic_stim text label onset duration
      ∧ (no_extra_fields labelled_file (Some ["onset"; "text"]) →
         label = PyInt 1).
Proof.
  destruct (timed_file_elements (no_nltk {["stims.txt" := labelled_file]})
           "stims.txt" "ot" PyNone
           {| elements :=
                [dynamic_stim (PyStr "hello") (PyStr "x") (PyStr "0.5") PyNone;
                 dynamic_stim (PyStr "world") (PyStr "y") (PyStr "1.0")
                   PyNone] |}
           labelled_file (Some ["onset"; "text"])
           {| df_index := [PyStr "x"; PyStr "y"];
              df_columns := ["onset"; "text"];
              df_data := [[PyStr "0.5"; PyStr "hello"];
                          [PyStr "1.0"; PyStr "world"]] |})
    as [Hlen Hall].
  - reflexivity.
  - vm_compute. reflexivity.
  - vm_compute. reflexivity.
  - simpl. set_solver.
  - vm_compute. reflexivity.
  - split; [exact Hlen|]. apply (Hall 1). reflexivity.
Defined.

(** On a table without an onset column, a constructor call that returns
    gives one element per row, each a plain [TextStim]: its class is
    [TextStim] and [text] is its only attribute, so that it has no
    order, no onset and no duration. *)
Theorem untimed_file_elements w filename columns dd cts content names df :
  files w !! filename = Some content →
  col_names (first_row content) columns = Ok names →
  read_csv content names = Ok df →
  "onset" ∉ df_columns df →
  ComplexTextStim_init w (Some filename) columns dd = Ok cts →
  List.length (elements cts) = List.length (df_data df)
  ∧ Forall (λ e, is_plain e
                 ∧ stim_cls e = CTextStim
                 ∧ dom (stim_dict e) = {["text"]}
                 ∧ getattr e "onset" = Raise (Exn AttributeError "onset"))
      (elements cts).
Proof.
  intros Hf Hn Hdf Hon Hcts.
  split; [by eapply from_file_length|].
  apply Forall_lookup. intros i e Hi.
  apply from_file_inv in Hcts as (content' & names' & df' & Hf' & Hn' & Hdf' & Hall).
  rewrite Hf in Hf'. injection Hf' as <-.
  rewrite Hn in Hn'. injection Hn' as <-.
  rewrite Hdf in Hdf'. injection Hdf' as <-.
  destruct (Forall2_lookup_r _ _ _ _ _ Hall Hi) as (ir & Hr & He).
  apply iterrows_lookup_inv in Hr as (label & cells & Hl & Hc & ->).
  simpl in He.
  assert (series_contains (zip (df_columns df) cells) "onset" = false) as Hsc.
  { unfold series_contains. rewrite (series_find_absent _ _ _ Hon).
    apply bool_decide_eq_false. by intros [? ?]. }
  unfold row_element in He. rewrite Hsc in He. simpl in He.
  destruct (series_getitem (zip (df_columns df) cells) "text") as [text|x];
    simpl in He; [|done].
  split; [by exists w, text, PyNone|].
  destruct (TextStim_attrs _ _ _ _ He) as [v ->].
  split; [done|]. split; [apply dom_singleton_L|done].
Qed.

Lemma untimed_file_elements_witness :
  List.length [plain_stim (PyStr "surprise")] = List.length [[PyStr "hello"]]
  ∧ Forall (λ e, is_plain e
                 ∧ stim_cls e = CTextStim
                 ∧ dom (stim_dict e) = {["text"]}
                 ∧ getattr e "onset" = Raise (Exn AttributeError "onset"))
      [plain_stim (PyStr "surprise")].
Proof.
  apply (untimed_file_elements
           (no_nltk (<["hello" := "surprise"]> {["stims.txt" := text_only_file]}))
           "stims.txt" "tod" PyNone
           {| elements := [plain_stim (PyStr "surprise")] |}
           text_only_file None
           {| df_index := [PyInt 0];
              df_columns := ["text"]; df_data := [[PyStr "hello"]] |}).
  - vm_compute. reflexivity.
  - vm_compute. reflexivity.
  - vm_compute. reflexivity.
  - simpl. set_solver.
  - vm_compute. reflexivity.
Defined.

(** ** File ingestion: the default duration *)

(** On a table with an onset column and no duration column, every
    element of the collection has [default_duration] as its duration
    ([None] when no default is given). *)
Theorem default_duration_fills_missing_column
  w filename columns dd cts content names df :
  files w !! filename = Some content →
  col_names (first_row content) columns = Ok names →
  read_csv content names = Ok df →
  "onset" ∈ df_columns df → "duration" ∉ df_columns df →
  ComplexTextStim_init w (Some filename) columns dd = Ok cts →
  Forall (λ e, getattr e "duration" = Ok dd) (elements cts).
Proof.
  intros Hf Hn Hdf Hon Hdu Hcts. apply Forall_lookup. intros i e Hi.
  apply from_file_inv in Hcts as (content' & names' & df' & Hf' & Hn' & Hdf' & Hall).
  rewrite Hf in Hf'. injection Hf' as <-.
  rewrite Hn in Hn'. injection Hn' as <-.
  rewrite Hdf in Hdf'. injection Hdf' as <-.
  destruct (Forall2_lookup_r _ _ _ _ _ Hall Hi) as (ir & Hr & He).
  apply iterrows_lookup_inv in Hr as (label & cells & Hl & Hc & ->).
  simpl in He.
  pose proof (read_csv_cells_length _ _ _ _ _ Hdf Hc) as Hlen.
  destruct (series_find_zip _ _ _ Hon Hlen) as [onset Honset].
  assert (series_contains (zip (df_columns df) cells) "onset" = true) as Hsc.
  { unfold series_contains. rewrite Honset. by apply bool_decide_eq_true. }
  unfold row_element, series_get in He. rewrite Hsc in He. simpl in He.
  rewrite (series_find_absent _ _ _ Hdu) in He. simpl in He.
  unfold series_getitem in He. rewrite Honset in He.
  destruct (series_find (zip (df_columns df) cells) "text") as [text|];
    simpl in He; [|done].
  rewrite DynamicTextStim_eq in He. by injection He as <-.
Qed.

Lemma default_duration_fills_missing_column_witness :
  Forall (λ e, getattr e "duration" = Ok (PyFloat (3 # 2)))
    [dynamic_stim (PyStr "hello") (PyInt 0) (PyStr "0.5") (PyFloat (3 # 2));
     dynamic_stim (PyStr "world") (PyInt 1) (PyStr "1.0") (PyFloat (3 # 2))].
Proof.
  apply (default_duration_fills_missing_column
           (no_nltk {["stims.txt" := bare_file]}) "stims.txt" "ot"
           (PyFloat (3 # 2))
           {| elements :=
                [dynamic_stim (PyStr "hello") (PyInt 0) (PyStr "0.5")
                   (PyFloat (3 # 2));
                 dynamic_stim (PyStr "world") (PyInt 1) (PyStr "1.0")
                   (PyFloat (3 # 2))] |}
           bare_file (Some ["onset"; "text"])
           {| df_index := [PyInt 0; PyInt 1];
              df_columns := ["onset"; "text"];
              df_data := [[PyStr "0.5"; PyStr "hello"];
                          [PyStr "1.0"; PyStr "world"]] |}).
  - reflexivity.
  - vm_compute. reflexivity.
  - vm_compute. reflexivity.
  - simpl. set_solver.
  - simpl. set_solver.
  - vm_compute. reflexivity.
Defined.

(** On a table that has a duration column, or no onset column,
    [default_duration] plays no part: two calls that differ in it only
    give the same result, elements and failures alike. *)
Theorem default_duration_unused_with_duration_column
  w filename columns dd dd' content names df :
  files w !! filename = Some content →
  col_names (first_row content) columns = Ok names →
  read_csv content names = Ok df →
  "duration" ∈ df_columns df ∨ "onset" ∉ df_columns df →
  ComplexTextStim_init w (Some filename) columns dd
  = ComplexTextStim_init w (Some filename) columns dd'.
Proof.
  intros Hf Hn Hdf Hcol.
  rewrite !(from_file_eq _ _ _ _ _ _ _ Hf Hn Hdf).
  rewrite (from_file_loop_ext w dd dd'); [done|].
  apply Forall_lookup. intros i ir Hr.
  apply iterrows_lookup_inv in Hr as (label & cells & Hl & Hc & ->). simpl.
  unfold row_element, series_get.
  destruct (series_contains (zip (df_columns df) cells) "onset") eqn:Hsc;
    simpl; [|done].
  destruct Hcol as [Hdu|Hon].
  - pose proof (read_csv_cells_length _ _ _ _ _ Hdf Hc) as Hlen.
    destruct (series_find_zip _ _ _ Hdu Hlen) as [d Hd]. rewrite Hd. simpl.
    apply series_find_cell in Hd.
    pose proof (read_csv_no_None _ _ _ _ _ Hdf Hc) as Hnn.
    rewrite Forall_forall in Hnn. by rewrite (Hnn _ Hd).
  - exfalso. unfold series_contains in Hsc.
    rewrite (series_find_absent _ _ _ Hon) in Hsc.
    apply bool_decide_eq_true in Hsc. by destruct Hsc.
Qed.

Lemma default_duration_unused_with_duration_column_witness :
  ComplexTextStim_init (no_nltk {["stims.txt" := timed_file]})
    (Some "stims.txt") "tod" (PyFloat (3 # 2))
  = ComplexTextStim_init (no_nltk {["stims.txt" := timed_file]})
      (Some "stims.txt") "tod" PyNone.
Proof.
  apply (default_duration_unused_with_duration_column
           (no_nltk {["stims.txt" := timed_file]}) "stims.txt" "tod"
           (PyFloat (3 # 2)) PyNone timed_file None
           {| df_index := [PyInt 0; PyInt 1];
              df_columns := ["text"; "onset"; "duration"];
              df_data := [[PyStr "hello"; PyStr "0.5"; PyNaN];
                          [PyStr "world"; PyStr "1.0"; PyStr "0.3"]] |}).
  - reflexivity.
  - vm_compute. reflexivity.
  - vm_compute. reflexivity.
  - left. simpl. set_solver.
Defined.

(** ** File ingestion: failures *)

Lemma tod_names_lookup_None c :
  c ∉ ["t"; "o"; "d"] → dict_getitem tod_names c = Raise (Exn KeyError c).
Proof.
  intros Hc. unfold dict_getitem, tod_names.
  rewrite !not_elem_of_cons in Hc. destruct Hc as (? & ? & ? & _).
  by rewrite !lookup_insert_ne, lookup_empty.
Qed.

(** [mapM] raises what the first failing item raises. *)
Lemma mapM_first_raise {A B} (f : A → result B) (pre post : list A) x e :
  Forall (λ y, ∃ v, f y = Ok v) pre → f x = Raise e →
  mapM f (pre ++ x :: post) = Raise e.
Proof.
  intros Hpre Hx. induction Hpre as [|y pre [v Hy] _ IH]; simpl.
  - by rewrite Hx.
  - rewrite Hy. simpl. by rewrite IH.
Qed.

(** A file that cannot be read makes the constructor raise [IOError].
    When the file is there and its first line holds no reserved name, a
    character of [columns] other than [t], [o], [d] makes it raise
    [KeyError] for the first such character, before the file is parsed. *)
Theorem from_file_bad_arguments w filename columns dd :
  (files w !! filename = None →
     ComplexTextStim_init w (Some filename) columns dd
     = Raise (Exn IOError "No such file or directory"))
  ∧ (∀ content pre c post,
       files w !! filename = Some content →
       has_header (first_row content) = false →
       Str.chars columns = pre ++ c :: post →
       Forall (λ x, x ∈ ["t"; "o"; "d"]) pre →
       c ∉ ["t"; "o"; "d"] →
       ComplexTextStim_init w (Some filename) columns dd
       = Raise (Exn KeyError c)).
Proof.
  split.
  - intros Hf. unfold ComplexTextStim_init, _from_file, open_read.
    by rewrite Hf.
  - intros content pre c post Hf Hh Hcols Hpre Hc.
    unfold ComplexTextStim_init, _from_file, open_read, col_names.
    rewrite Hf. simpl. rewrite Hh, Hcols.
    rewrite (mapM_first_raise _ _ _ _ (Exn KeyError c)); [done| |].
    + eapply Forall_impl; [exact Hpre|]. intros x Hx.
      eexists. by apply dict_getitem_tod.
    + by apply tod_names_lookup_None.
Qed.

Lemma from_file_bad_arguments_witness :
  ComplexTextStim_init (no_nltk ∅) (Some "stims.txt") "tod" PyNone
    = Raise (Exn IOError "No such file or directory")
  ∧ ComplexTextStim_init (no_nltk {["stims.txt" := bare_file]})
      (Some "stims.txt") "oxt" PyNone
    = Raise (Exn KeyError "x").
Proof.
  split.
  - apply (proj1 (from_file_bad_arguments (no_nltk ∅) "stims.txt" "tod" PyNone)).
    reflexivity.
  - apply (proj2 (from_file_bad_arguments (no_nltk {["stims.txt" := bare_file]})
                    "stims.txt" "oxt" PyNone) bare_file ["o"] "x" ["t"]).
    + reflexivity.
    + vm_compute. reflexivity.
    + reflexivity.
    + repeat constructor.
    + set_solver.
Defined.

(** On a table without a text column the constructor raises
    [KeyError('text')] as soon as there is a data row; with no data row
    it returns the empty collection. *)
Theorem from_file_without_text_column w filename columns dd content names df :
  files w !! filename = Some content →
  col_names (first_row content) columns = Ok names →
  read_csv content names = Ok df →
  "text" ∉ df_columns df →
  ComplexTextStim_init w (Some filename) columns dd
  = match df_data df with
    | [] => Ok {| elements := [] |}
    | _ :: _ => Raise (Exn KeyError "text")
    end.
Proof.
  intros Hf Hn Hdf Htx. rewrite (from_file_eq _ _ _ _ _ _ _ Hf Hn Hdf).
  pose proof (read_csv_index_length _ _ _ Hdf) as Hlen.
  unfold iterrows.
  destruct (df_data df) as [|cells rest];
    destruct (df_index df) as [|label labels]; simpl in Hlen; try done.
  simpl. unfold row_element, series_getitem.
  rewrite (series_find_absent _ _ _ Htx).
  by destruct (series_contains _ "onset").
Qed.

Lemma from_file_without_text_column_witness :
  ComplexTextStim_init (no_nltk {["stims.txt" := bare_file]})
    (Some "stims.txt") "od" PyNone
  = Raise (Exn KeyError "text").
Proof.
  apply (from_file_without_text_column (no_nltk {["stims.txt" := bare_file]})
           "stims.txt" "od" PyNone bare_file (Some ["onset"; "duration"])
           {| df_index := [PyInt 0; PyInt 1];
              df_columns := ["onset"; "duration"];
              df_data := [[PyStr "0.5"; PyStr "hello"];
                          [PyStr "1.0"; PyStr "world"]] |}).
  - reflexivity.
  - vm_compute. reflexivity.
  - vm_compute. reflexivity.
  - simpl. set_solver.
Defined.

(** ** [TextStim.extract]: the empty list and the order of extractors *)

Section ExtractOneMore.

Context {Res : Type}.
Implicit Types (exts : list (Extractor Res)) (vals : gmap string Res).

Lemma TextStim_extract_data self exts v :
  TextStim_extract self exts = Ok v →
  value_stim v = self
  ∧ last exts = Some (value_extractor v)
  ∧ ∀ k, value_data v !! k = (λ x, apply x self) <$> last_named k exts.
Proof.
  unfold TextStim_extract.
  pose proof (extract_loop_last self exts ∅ None) as Hl.
  pose proof (extract_loop_lookup self exts ∅ None) as Hk.
  destruct (extract_loop self exts ∅ None) as [vals e]. simpl in *.
  destruct e as [e|]; [|done]. intros [= <-]. simpl.
  split; [done|]. split.
  - destruct (last exts); simpl in Hl; [by rewrite Hl|done].
  - intros k. rewrite Hk. by destruct (last_named k exts).
Qed.

(** [TextStim.extract] returns a [Value] exactly when it is given at
    least one extractor; with none, the name [e] of the [return]
    statement is unbound and the call raises [NameError]. *)
Theorem TextStim_extract_returns_iff self exts :
  ((∃ v, TextStim_extract self exts = Ok v) ↔ exts ≠ [])
  ∧ (exts = [] →
     ∃ msg, TextStim_extract self exts = Raise (Exn NameError msg)).
Proof.
  split; [split|].
  - intros [v Hv] ->. done.
  - intros Hne. unfold TextStim_extract.
    pose proof (extract_loop_last self exts ∅ None) as Hl.
    destruct (extract_loop self exts ∅ None) as [vals e]. simpl in Hl.
    destruct (last exts) as [x|] eqn:Hlast; [|by apply last_None in Hlast].
    simpl in Hl. subst e. by eexists.
  - intros ->. by eexists.
Qed.

Lemma last_named_None k exts :
  last_named k exts = None ↔ ∀ x, x ∈ exts → name x ≠ k.
Proof.
  induction exts as [|y rest IH]; simpl.
  - split; [by intros _ x ?%elem_of_nil|done].
  - destruct (last_named k rest) as [z|] eqn:Hz.
    + split; [done|]. intros Hall. exfalso.
      apply (Hall z); [right; by eapply last_named_elem|].
      by eapply last_named_name.
    + destruct (String.eqb_spec (name y) k) as [Hy|Hy].
      * split; [done|]. intros Hall. exfalso. apply (Hall y); [left|done].
      * split; [|done]. intros _ x [->|Hx]%elem_of_cons; [done|].
        by apply IH.
Qed.

(** With pairwise distinct names, the dictionary of results does not
    depend on the order in which the extractors are given; only the
    extractor recorded in the [Value], the last of the list, does. *)
Theorem TextStim_extract_order_irrelevant self exts exts' v v' :
  NoDup (name <$> exts) → exts ≡ₚ exts' →
  TextStim_extract self exts = Ok v →
  TextStim_extract self exts' = Ok v' →
  value_data v = value_data v' ∧ value_stim v = value_stim v'.
Proof.
  intros Hnd Hperm Hv Hv'.
  apply TextStim_extract_data in Hv as (Hs & _ & Hk).
  apply TextStim_extract_data in Hv' as (Hs' & _ & Hk').
  split; [|congruence]. apply map_eq. intros k. rewrite Hk, Hk'.
  assert (NoDup (name <$> exts')) as Hnd' by (by rewrite <- Hperm).
  destruct (last_named k exts) as [x|] eqn:Hx.
  - pose proof (last_named_name _ _ _ Hx) as <-.
    apply last_named_elem in Hx. rewrite Hperm in Hx.
    by rewrite (last_named_NoDup _ _ Hnd' Hx).
  - rewrite last_named_None in Hx.
    assert (last_named k exts' = None) as ->; [|done].
    apply last_named_None. intros x Hin. apply Hx. by rewrite Hperm.
Qed.

End ExtractOneMore.

Lemma TextStim_extract_order_irrelevant_witness :
  value_data
    {| value_stim := plain_stim (PyStr "hi");
       value_extractor := const_extractor "b" 2;
       value_data := <["b" := 2]> {["a" := 1]} |}
  = value_data
      {| value_stim := plain_stim (PyStr "hi");
         value_extractor := const_extractor "a" 1;
         value_data := <["a" := 1]> {["b" := 2]} |}
  ∧ value_stim
      {| value_stim := plain_stim (PyStr "hi");
         value_extractor := const_extractor "b" 2;
         value_data := <["b" := 2]> {["a" := 1]} |}
    = value_stim
        {| value_stim := plain_stim (PyStr "hi");
           value_extractor := const_extractor "a" 1;
           value_data := <["a" := 1]> {["b" := 2]} |}.
Proof.
  apply (TextStim_extract_order_irrelevant (plain_stim (PyStr "hi"))
           [const_extractor "a" 1; const_extractor "b" 2]
           [const_extractor "b" 2; const_extractor "a" 1]).
  - simpl. repeat constructor; set_solver.
  - apply Permutation_swap.
  - reflexivity.
  - reflexivity.
Defined.

Lemma TextStim_extract_returns_iff_witness :
  (∃ v, TextStim_extract (plain_stim (PyStr "hi")) [const_extractor "a" 1] = Ok v)
  ∧ (∃ msg, TextStim_extract (Res := nat) (plain_stim (PyStr "hi")) []
            = Raise (Exn NameError msg)).
Proof.
  split.
  - apply (proj1 (TextStim_extract_returns_iff (plain_stim (PyStr "hi"))
                    [const_extractor "a" 1])).
    discriminate.
  - apply (proj2 (TextStim_extract_returns_iff (Res := nat)
                    (plain_stim (PyStr "hi")) [])).
    reflexivity.
Defined.

(** ** [ComplexTextStim.extract]: when it fails *)

Section ExtractAllMore.

Context {Res : Type}.
Implicit Types (ext : Extractor Res) (exts : list (Extractor Res))
  (tl : Timeline Res).

(** The element-level pass returns when every element has an onset, and
    raises at the first one that has none. *)
Lemma extract_elements_cases ext merge elems tl :
  (Forall (λ e, is_Some (stim_dict e !! "onset")) elems →
     ∃ tl', extract_elements ext merge elems tl = Ok tl')
  ∧ (Exists (λ e, stim_dict e !! "onset" = None) elems →
     extract_elements ext merge elems tl = Raise (Exn AttributeError "onset")).
Proof.
  revert tl. induction elems as [|e rest IH]; intros tl.
  - split; [by eexists|by intros ?%Exists_nil].
  - simpl. unfold getattr. split.
    + intros [[v Hv] Hall]%Forall_cons. rewrite Hv. simpl.
      by apply IH.
    + intros [Hx|Hx]%Exists_cons.
      * by rewrite Hx.
      * destruct (stim_dict e !! "onset"); simpl; [|done]. by apply IH.
Qed.

Lemma extract_extractors_ok self exts merge tl :
  Forall (λ ext, targets_collection ext = true) exts
  ∨ Forall (λ e, is_Some (stim_dict e !! "onset")) (elements self) →
  ∃ tl', extract_extractors self exts merge tl = Ok tl'.
Proof.
  intros Hok. revert tl. induction exts as [|ext rest IH]; intros tl.
  - by eexists.
  - simpl. destruct (targets_collection ext) eqn:Ht; simpl.
    + apply IH. destruct Hok as [Hall|?]; [|by right].
      left. by apply Forall_cons in Hall as [_ ?].
    + destruct Hok as [Hall|Hall].
      { apply Forall_cons in Hall as [? _]. congruence. }
      destruct (proj1 (extract_elements_cases ext merge (elements self) tl) Hall)
        as [tl' ->].
      simpl. apply IH. by right.
Qed.

Lemma extract_extractors_fail self exts merge tl :
  Exists (λ ext, targets_collection ext = false) exts →
  Exists (λ e, stim_dict e !! "onset" = None) (elements self) →
  extract_extractors self exts merge tl = Raise (Exn AttributeError "onset").
Proof.
  intros Hex Hel. revert tl.
  induction exts as [|ext rest IH]; intros tl; [by apply Exists_nil in Hex|].
  simpl. destruct (targets_collection ext) eqn:Ht; simpl.
  - apply IH. apply Exists_cons in Hex as [?|?]; [congruence|done].
  - by rewrite (proj2 (extract_elements_cases ext merge (elements self) tl) Hel).
Qed.

(** [extract] fails with [AttributeError] on [onset] exactly when one of
    the extractors is element-level and one of the elements has no onset
    attribute; in every other case it returns a timeline. *)
Theorem ComplexTextStim_extract_fails_iff self exts merge_events :
  (ComplexTextStim_extract self exts merge_events
     = Raise (Exn AttributeError "onset")
   ↔ Exists (λ ext, targets_collection ext = false) exts
     ∧ Exists (λ e, stim_dict e !! "onset" = None) (elements self))
  ∧ ((∃ tl, ComplexTextStim_extract self exts merge_events = Ok tl)
     ↔ Forall (λ ext, targets_collection ext = true) exts
       ∨ Forall (λ e, is_Some (stim_dict e !! "onset")) (elements self)).
Proof.
  unfold ComplexTextStim_extract.
  assert (Forall (λ ext, targets_collection ext = true) exts
          ∨ Exists (λ ext, targets_collection ext = false) exts) as Hexts.
  { induction exts as [|ext rest [IH|IH]].
    - left. constructor.
    - destruct (targets_collection ext) eqn:Ht.
      + left. by constructor.
      + right. by left.
    - right. by right. }
  assert (Forall (λ e, is_Some (stim_dict e !! "onset")) (elements self)
          ∨ Exists (λ e, stim_dict e !! "onset" = None) (elements self)) as Hels.
  { induction (elements self) as [|e rest [IH|IH]].
    - left. constructor.
    - destruct (stim_dict e !! "onset") eqn:Ho.
      + left. constructor; [by eexists|done].
      + right. by left.
    - right. by right. }
  split; split.
  - intros Hr. destruct Hexts as [Hall|Hex].
    { destruct (extract_extractors_ok self exts merge_events Timeline_init)
        as [tl Htl]; [by left|]. congruence. }
    destruct Hels as [Hall|Hel]; [|done].
    destruct (extract_extractors_ok self exts merge_events Timeline_init)
      as [tl Htl]; [by right|]. congruence.
  - intros [Hex Hel]. by apply extract_extractors_fail.
  - intros [tl Htl]. destruct Hexts as [?|Hex]; [by left|].
    destruct Hels as [?|Hel]; [by right|].
    rewrite (extract_extractors_fail _ _ _ _ Hex Hel) in Htl. done.
  - apply extract_extractors_ok.
Qed.

End ExtractAllMore.

Lemma ComplexTextStim_extract_fails_iff_witness :
  ComplexTextStim_extract
    {| elements := [dynamic_stim (PyStr "a") (PyInt 0) (PyStr "0.5") PyNone;
                    plain_stim (PyStr "b")] |}
    [size_extractor "size"] true
  = Raise (Exn AttributeError "onset")
  ∧ ∃ tl, ComplexTextStim_extract
            {| elements :=
                 [dynamic_stim (PyStr "a") (PyInt 0) (PyStr "0.5") PyNone] |}
            [size_extractor "size"] true = Ok tl.
Proof.
  split.
  - apply (proj1 (ComplexTextStim_extract_fails_iff
             {| elements :=
                  [dynamic_stim (PyStr "a") (PyInt 0) (PyStr "0.5") PyNone;
                   plain_stim (PyStr "b")] |}
             [size_extractor "size"] true)).
    split; [left; reflexivity|right; left; reflexivity].
  - apply (proj2 (ComplexTextStim_extract_fails_iff
             {| elements :=
                  [dynamic_stim (PyStr "a") (PyInt 0) (PyStr "0.5") PyNone] |}
             [size_extractor "size"] true)).
    right. repeat constructor. by eexists.
Defined.

(** A collection read from a table with an onset column can always be
    extracted from: whatever the extractors and the merge flag, [extract]
    returns a timeline. *)
Theorem extract_after_timed_file
  {Res : Type} w filename columns dd cts content names df
  (exts : list (Extractor Res)) merge_events :
  files w !! filename = Some content →
  col_names (first_row content) columns = Ok names →
  read_csv content names = Ok df →
  "onset" ∈ df_columns df →
  ComplexTextStim_init w (Some filename) columns dd = Ok cts →
  ∃ tl, ComplexTextStim_extract cts exts merge_events = Ok tl.
Proof.
  intros Hf Hn Hdf Hon Hcts.
  apply extract_extractors_ok. right.
  apply Forall_lookup. intros i e Hi.
  destruct (timed_rows_dynamic _ _ _ _ _ _ _ _ Hf Hn Hdf Hon Hcts i e Hi)
    as (label & cells & text & onset & duration & _ & _ & _ & _ & ->).
  by eexists.
Qed.

Lemma extract_after_timed_file_witness :
  ∃ tl, ComplexTextStim_extract
          {| elements :=
               [dynamic_stim (PyStr "hello") (PyInt 0) (PyStr "0.5") PyNaN;
                dynamic_stim (PyStr "world") (PyInt 1) (PyStr "1.0")
                  (PyStr "0.3")] |}
          [size_extractor "size"] true = Ok tl.
Proof.
  apply (extract_after_timed_file
           (no_nltk {["stims.txt" := timed_file]}) "stims.txt" "tod" PyNone
           {| elements :=
                [dynamic_stim (PyStr "hello") (PyInt 0) (PyStr "0.5") PyNaN;
                 dynamic_stim (PyStr "world") (PyInt 1) (PyStr "1.0")
                   (PyStr "0.3")] |}
           timed_file None
           {| df_index := [PyInt 0; PyInt 1];
              df_columns := ["text"; "onset"; "duration"];
              df_data := [[PyStr "hello"; PyStr "0.5"; PyNaN];
                          [PyStr "world"; PyStr "1.0"; PyStr "0.3"]] |}
           [size_extractor "size"] true).
  - reflexivity.
  - vm_compute. reflexivity.
  - vm_compute. reflexivity.
  - simpl. set_solver.
  - vm_compute. reflexivity.
Defined.

(** ** Segmentation: explicit tokenizer objects and [nltk] *)

(** A tokenizer object overrides everything else: the collection holds
    one plain element per token it returns, in order; what it raises is
    what the call raises; and neither [unit] (valid or not), nor
    [language], nor the presence of [nltk] has any influence. *)
Theorem tokenizer_object_overrides_unit
  w text unit_ language (tokenize : string → result (list string)) :
  from_text w text unit_ (Some (TokObject tokenize)) language
  = match tokenize text with
    | Ok toks => Ok {| elements := (λ s, plain_stim (PyStr s)) <$> toks |}
    | Raise e => Raise e
    end.
Proof.
  destruct (tokenize text) as [toks|e] eqn:Ht.
  - rewrite (from_text_ok w _ _ _ _ (PyStr <$> toks)).
    + by rewrite <- list_fmap_compose.
    + simpl. by rewrite Ht.
  - apply from_text_raise. simpl. by rewrite Ht.
Qed.

(** With [nltk] importable and its [punkt] data found, or missing and
    then downloaded, [from_text] without tokenizer holds what [nltk]
    returns for the text and the language: the words for unit ['word'],
    the sentences for every unit that starts with ['sent']. *)
Theorem from_text_with_nltk w n text unit_ language toks :
  nltk w = Some n →
  (nltk_data_find n "punkt.zip" = Ok ()
   ∨ ∃ msg, nltk_data_find n "punkt.zip" = Raise (Exn LookupError msg)
            ∧ nltk_download n "punkt" = Ok ()) →
  (unit_ = "word" ∧ nltk_word_tokenize n text language = Ok toks)
  ∨ (unit_ ≠ "word" ∧ Str.startswith "sent" unit_ = true
     ∧ nltk_sent_tokenize n text language = Ok toks) →
  from_text w text unit_ None language
  = Ok {| elements := (λ s, plain_stim (PyStr s)) <$> toks |}.
Proof.
  intros Hn Hpunkt Hunit.
  rewrite (from_text_ok w _ _ _ _ (PyStr <$> toks));
    [by rewrite <- list_fmap_compose|].
  unfold tokens_of, try_except, nltk_tokens, import_nltk. rewrite Hn. simpl.
  assert (ensure_punkt n = Ok ()) as ->.
  { unfold ensure_punkt. destruct Hpunkt as [->|(msg & -> & Hd)]; [done|].
    simpl. by rewrite Hd. }
  simpl. destruct Hunit as [[-> Hw]|(Hne & Hs & Ht)].
  - simpl. by rewrite Hw.
  - rewrite (eqb_word_false _ Hne), Hs, Ht. done.
Qed.

Lemma from_text_with_nltk_witness :
  from_text (with_nltk ∅) "One. Two." "sentences" None "english"
  = Ok {| elements := (λ s, plain_stim (PyStr s)) <$> ["One. Two."] |}.
Proof.
  apply (from_text_with_nltk (with_nltk ∅) toy_nltk "One. Two." "sentences"
           "english" ["One. Two."]).
  - reflexivity.
  - left. reflexivity.
  - right. repeat split. discriminate.
Defined.

(** ** File ingestion: only the first line decides on the header *)

Lemma readline_first_line (line rest : string) :
  str_forall (λ c, negb (Ascii.eqb c Str.LF)) line = true →
  Str.readline (line +:+ String Str.LF rest) = line +:+ String Str.LF "".
Proof.
  induction line as [|c line IH]; intros Hl.
  - reflexivity.
  - rewrite !str_app_cons. simpl in *.
    apply andb_true_iff in Hl as [Hc Hl]. apply negb_true_iff in Hc.
    rewrite Hc. by rewrite IH.
Qed.

(** Whether a file is taken to have a header depends on its first line
    alone: what follows the first newline does not enter the test, so a
    reserved name on a later line never turns the first line into a
    header. *)
Theorem header_test_reads_first_line_only (line rest rest' : string) :
  str_forall (λ c, negb (Ascii.eqb c Str.LF)) line = true →
  first_row (line +:+ String Str.LF rest)
  = first_row (line +:+ String Str.LF rest')
  ∧ has_header (first_row (line +:+ String Str.LF rest))
    = has_header (first_row (line +:+ String Str.LF rest')).
Proof.
  intros Hl. unfold first_row. by rewrite !(readline_first_line _ _ Hl).
Qed.

Lemma header_test_reads_first_line_only_witness :
  first_row ("0.5" +:+ String Str.LF "text")
  = first_row ("0.5" +:+ String Str.LF "hello")
  ∧ has_header (first_row ("0.5" +:+ String Str.LF "text"))
    = has_header (first_row ("0.5" +:+ String Str.LF "hello")).
Proof.
  apply (header_test_reads_first_line_only "0.5" "text" "hello").
  reflexivity.
Defined.
